(** * The in-process peer transport of bdls ([ipc_peer.go])

    A shallow embedding of [IPCPeer]: the latency-emulating transport that
    delivers consensus messages between local engine instances, together
    with the properties its specification states about it.

    Layout: machine integers and binary64 floats as Go has them, the
    [IPCPeer] record, a small state-and-panic monad over the world the
    transport lives in (engine, scheduler, clock, random source), the
    methods of [IPCPeer] transcribed statement by statement, and then the
    theorems.

    Goroutines.  The body of every method that touches a mutable field is
    a critical section of the one mutex, [Close] is serialized by its
    [sync.Once], and [Send] reads only the latency, which is never
    written.  A method call is therefore one step, and a run is one
    interleaving of the calls that any number of goroutines and the
    scheduler make.  The mutex is part of the state all the same: a call
    that finds it held is [Blocked], and the theorems show that between
    calls it never is. *)

From Stdlib Require Import ZArith List String Bool Lia Strings.Byte Floats.SpecFloat.
From Stdlib Require Import Permutation.
Import ListNotations.
Local Open Scope Z_scope.

(** ** Go's [int64] *)

Module Int64.

Definition modulus : Z := 2 ^ 64.
Definition MaxInt64 : Z := 2 ^ 63 - 1.
Definition MinInt64 : Z := - 2 ^ 63.

(** Two's-complement reduction: what an [int64] holds after an
    arithmetic operation whose exact result is [x]. *)
Definition wrap (x : Z) : Z := (x + 2 ^ 63) mod modulus - 2 ^ 63.

Definition in_range (x : Z) : Prop := MinInt64 <= x <= MaxInt64.

Definition add (x y : Z) : Z := wrap (x + y).

End Int64.

(** ** Go's [float64], as IEEE 754 binary64 *)

Module Float64.

Definition prec : Z := 53.
Definition emax : Z := 1024.

Definition float64 : Type := spec_float.

Definition mul : float64 -> float64 -> float64 := SFmul prec emax.

(** [float64(i)] for an integer [i]: the nearest binary64, ties to even. *)
Definition of_int (i : Z) : float64 := binary_normalize prec emax i 0 false.

(** The untyped constant [0.1] given type [float64]:
    0x3FB999999999999A = 7205759403792794 * 2^-56. *)
Definition c0_1 : float64 := S754_finite false 7205759403792794 (-56).

(** The integer part of a finite float, rounded toward zero. *)
Definition trunc (f : float64) : option Z :=
  match f with
  | S754_zero _ => Some 0
  | S754_finite s m e =>
      let a := if 0 <=? e then Z.pos m * 2 ^ e else Z.pos m / 2 ^ (- e) in
      Some (if s then - a else a)
  | S754_infinity _ | S754_nan => None
  end.

(** [int64(f)]: the truncated value when an [int64] can hold it.  For
    every other float the Go specification lets the implementation
    choose the result (amd64 gives [MinInt64]); [impl] is that
    choice. *)
Definition to_int64 (impl : float64 -> Z) (f : float64) : Z :=
  match trunc f with
  | Some v =>
      if (Int64.MinInt64 <=? v) && (v <=? Int64.MaxInt64) then v
      else Int64.wrap (impl f)
  | None => Int64.wrap (impl f)
  end.

(** Whether the conversion of [f] is fixed by the language. *)
Definition representable (f : float64) : bool :=
  match trunc f with
  | Some v => (Int64.MinInt64 <=? v) && (v <=? Int64.MaxInt64)
  | None => false
  end.

(** The sample -(10 + 2^-49), the float next below -10. *)
Definition below_minus_ten : float64 := S754_finite true 5629499534213121 (-49).

End Float64.

(** ** Durations, instants and errors *)

(** [time.Duration] is an [int64] count of nanoseconds. *)
Definition Duration : Type := Z.
Definition Millisecond : Duration := 1000000.

(** [time.Time], as nanoseconds on the wall clock; [Time.Add] moves an
    instant by a duration. *)
Definition Time : Type := Z.
Definition time_Add (t : Time) (d : Duration) : Time := t + d.

(** Go's [error]: [nil] is [None], [errors.New s] is [Some s]. *)
Definition error : Type := option string.

(** The part of the error catalogue the examples below use. *)
Definition ErrMessageIsEmpty : error :=
  Some "the message being verified is empty"%string.
Definition ErrMessageSignature : error :=
  Some "cannot verify the signature of this message"%string.

(** [State] is a byte slice in bdls. *)
Definition State : Type := list byte.

(** ** The consensus engine, as the transport sees it

    [IPCPeer] reaches the engine through [ReceiveMessage], [Update],
    [Propose], [CurrentState] and the public key.  The engine is a black
    box over its own state [C]. *)

Module Consensus.

Class Engine (C : Type) : Type := {
  ReceiveMessage : C -> list byte -> Time -> C * error;
  Update : C -> Time -> C * error;
  Propose : C -> State -> C;
  CurrentState : C -> Z * Z * State;
  PublicKey : C -> Z * Z
}.

(** The same engine with every reported error replaced by [nil]. *)
Definition silenced {C} (E : Engine C) : Engine C := {|
  ReceiveMessage := fun c m t => (fst (ReceiveMessage c m t), None);
  Update := fun c t => (fst (Update c t), None);
  Propose := Propose;
  CurrentState := CurrentState;
  PublicKey := PublicKey
|}.

End Consensus.

(** ** What the runtime and the platform decide

    The k-th reading of [time.Now], the k-th sample of
    [rand.NormFloat64], and the platform's result for a float-to-int64
    conversion the language leaves open. *)

Record Env : Type := {
  env_now : nat -> Time;
  env_norm : nat -> Float64.float64;
  env_conv : Float64.float64 -> Z
}.

(** A channel that is only ever closed, never sent on. *)
Inductive chan : Type := ChanOpen | ChanClosed.

(** The callbacks handed to the scheduler: the [txDelay] closure of [Send]
    with the variables it captures, and the method value [p.Update]. *)
Inductive Task : Type :=
| TxDelay (msg : list byte) (delay : Duration)
| UpdateTask.

(** Calls that leave the transport, and the lock and channel operations. *)
Inductive Event : Type :=
| EvLock
| EvUnlock
| EvCloseDie
| EvReceiveMessage (msg : list byte) (t : Time)
| EvEngineUpdate (t : Time)
| EvPut (task : Task) (fire : Time)
| EvFire (task : Task).

(** The five statistics fields, as one snapshot. *)
Record Stats : Type := {
  st_msgCount : Z;
  st_bytesCount : Z;
  st_minLatency : Duration;
  st_maxLatency : Duration;
  st_totalLatency : Duration
}.

(** A trace entry: the event and the statistics at that moment. *)
Record Logged : Type := { ev : Event; seen : Stats }.

(** ** The transport and the world around it *)

Section Transport.

Context {C : Type} {E : Consensus.Engine C}.

(** [type IPCPeer struct].  [c] holds the bound engine's state, [Mutex]
    whether the embedded [sync.Mutex] is held, [dieOnce] whether the
    [sync.Once] has fired. *)
Record IPCPeer : Type := {
  c : C;
  Mutex : bool;
  latency : Duration;
  die : chan;
  dieOnce : bool;
  msgCount : Z;
  bytesCount : Z;
  minLatency : Duration;
  maxLatency : Duration;
  totalLatency : Duration
}.

Definition set_c (v : C) (p : IPCPeer) : IPCPeer :=
  {| c := v; Mutex := Mutex p; latency := latency p; die := die p;
     dieOnce := dieOnce p; msgCount := msgCount p;
     bytesCount := bytesCount p; minLatency := minLatency p;
     maxLatency := maxLatency p; totalLatency := totalLatency p |}.
Definition set_Mutex (v : bool) (p : IPCPeer) : IPCPeer :=
  {| c := c p; Mutex := v; latency := latency p; die := die p;
     dieOnce := dieOnce p; msgCount := msgCount p;
     bytesCount := bytesCount p; minLatency := minLatency p;
     maxLatency := maxLatency p; totalLatency := totalLatency p |}.
Definition set_die (v : chan) (p : IPCPeer) : IPCPeer :=
  {| c := c p; Mutex := Mutex p; latency := latency p; die := v;
     dieOnce := dieOnce p; msgCount := msgCount p;
     bytesCount := bytesCount p; minLatency := minLatency p;
     maxLatency := maxLatency p; totalLatency := totalLatency p |}.
Definition set_dieOnce (v : bool) (p : IPCPeer) : IPCPeer :=
  {| c := c p; Mutex := Mutex p; latency := latency p; die := die p;
     dieOnce := v; msgCount := msgCount p;
     bytesCount := bytesCount p; minLatency := minLatency p;
     maxLatency := maxLatency p; totalLatency := totalLatency p |}.
Definition set_msgCount (v : Z) (p : IPCPeer) : IPCPeer :=
  {| c := c p; Mutex := Mutex p; latency := latency p; die := die p;
     dieOnce := dieOnce p; msgCount := v;
     bytesCount := bytesCount p; minLatency := minLatency p;
     maxLatency := maxLatency p; totalLatency := totalLatency p |}.
Definition set_bytesCount (v : Z) (p : IPCPeer) : IPCPeer :=
  {| c := c p; Mutex := Mutex p; latency := latency p; die := die p;
     dieOnce := dieOnce p; msgCount := msgCount p;
     bytesCount := v; minLatency := minLatency p;
     maxLatency := maxLatency p; totalLatency := totalLatency p |}.
Definition set_minLatency (v : Duration) (p : IPCPeer) : IPCPeer :=
  {| c := c p; Mutex := Mutex p; latency := latency p; die := die p;
     dieOnce := dieOnce p; msgCount := msgCount p;
     bytesCount := bytesCount p; minLatency := v;
     maxLatency := maxLatency p; totalLatency := totalLatency p |}.
Definition set_maxLatency (v : Duration) (p : IPCPeer) : IPCPeer :=
  {| c := c p; Mutex := Mutex p; latency := latency p; die := die p;
     dieOnce := dieOnce p; msgCount := msgCount p;
     bytesCount := bytesCount p; minLatency := minLatency p;
     maxLatency := v; totalLatency := totalLatency p |}.
Definition set_totalLatency (v : Duration) (p : IPCPeer) : IPCPeer :=
  {| c := c p; Mutex := Mutex p; latency := latency p; die := die p;
     dieOnce := dieOnce p; msgCount := msgCount p;
     bytesCount := bytesCount p; minLatency := minLatency p;
     maxLatency := maxLatency p; totalLatency := v |}.

Definition stats_of (p : IPCPeer) : Stats :=
  {| st_msgCount := msgCount p; st_bytesCount := bytesCount p;
     st_minLatency := minLatency p; st_maxLatency := maxLatency p;
     st_totalLatency := totalLatency p |}.

(** One transport [peer], the scheduler's pending callbacks [sched]
    (callback and fire time, oldest first), the environment with the
    number of clock readings and random samples consumed so far, and
    the trace of what has happened. *)
Record World : Type := {
  peer : IPCPeer;
  sched : list (Task * Time);
  env : Env;
  clock_reads : nat;
  rand_reads : nat;
  trace : list Logged
}.

Definition set_peer (p : IPCPeer) (w : World) : World :=
  {| peer := p; sched := sched w; env := env w;
     clock_reads := clock_reads w; rand_reads := rand_reads w;
     trace := trace w |}.
Definition set_sched (q : list (Task * Time)) (w : World) : World :=
  {| peer := peer w; sched := q; env := env w;
     clock_reads := clock_reads w; rand_reads := rand_reads w;
     trace := trace w |}.
Definition set_clock_reads (n : nat) (w : World) : World :=
  {| peer := peer w; sched := sched w; env := env w;
     clock_reads := n; rand_reads := rand_reads w; trace := trace w |}.
Definition set_rand_reads (n : nat) (w : World) : World :=
  {| peer := peer w; sched := sched w; env := env w;
     clock_reads := clock_reads w; rand_reads := n; trace := trace w |}.
Definition set_trace (t : list Logged) (w : World) : World :=
  {| peer := peer w; sched := sched w; env := env w;
     clock_reads := clock_reads w; rand_reads := rand_reads w;
     trace := t |}.

(** *** The monad: state, panics and a blocked goroutine *)

Inductive Result (A : Type) : Type :=
| Ok (a : A) (w : World)
| Panic (why : string) (w : World)
| Blocked.
Arguments Ok {A} a w.
Arguments Panic {A} why w.
Arguments Blocked {A}.

Definition M (A : Type) : Type := World -> Result A.

Definition ret {A} (a : A) : M A := fun w => Ok a w.

Definition bind {A B} (m : M A) (k : A -> M B) : M B :=
  fun w =>
    match m w with
    | Ok a w' => k a w'
    | Panic s w' => Panic s w'
    | Blocked => Blocked
    end.

Definition panic {A} (why : string) : M A := fun w => Panic why w.

(** [defer cleanup] before [body]: [cleanup] runs when [body] returns
    and also when it panics. *)
Definition defer {A} (cleanup : M unit) (body : M A) : M A :=
  fun w =>
    match body w with
    | Ok a w' =>
        match cleanup w' with
        | Ok _ w'' => Ok a w''
        | Panic s w'' => Panic s w''
        | Blocked => Blocked
        end
    | Panic s w' =>
        match cleanup w' with
        | Ok _ w'' => Panic s w''
        | Panic s' w'' => Panic s' w''
        | Blocked => Blocked
        end
    | Blocked => Blocked
    end.

Notation "x <- m ;; k" := (bind m (fun x => k))
  (at level 61, m at next level, right associativity).
Notation "m ;; k" := (bind m (fun _ => k))
  (at level 61, right associativity).

Definition get_peer : M IPCPeer := fun w => Ok (peer w) w.

Definition modify_peer (f : IPCPeer -> IPCPeer) : M unit :=
  fun w => Ok tt (set_peer (f (peer w)) w).

(** Append an event to the trace, with the statistics as they are now. *)
Definition log (e : Event) : M unit :=
  fun w =>
    Ok tt (set_trace (trace w ++ [{| ev := e; seen := stats_of (peer w) |}]) w).

(** [p.Lock()]: a goroutine that finds the mutex held waits. *)
Definition Lock : M unit :=
  fun w =>
    if Mutex (peer w) then Blocked
    else (modify_peer (set_Mutex true) ;; log EvLock) w.

(** [p.Unlock()]: unlocking a mutex that is not held is a fatal error. *)
Definition Unlock : M unit :=
  fun w =>
    if Mutex (peer w) then (log EvUnlock ;; modify_peer (set_Mutex false)) w
    else Panic "sync: unlock of unlocked mutex" w.

(** [time.Now()] *)
Definition time_Now : M Time :=
  fun w => Ok (env_now (env w) (clock_reads w))
              (set_clock_reads (S (clock_reads w)) w).

(** [rand.NormFloat64()] *)
Definition rand_NormFloat64 : M Float64.float64 :=
  fun w => Ok (env_norm (env w) (rand_reads w))
              (set_rand_reads (S (rand_reads w)) w).

(** Modelled from the spec: [timer.SystemTimedSched.Put], the scheduler
    collaborator of package [timer].  It accepts a callback and an
    absolute fire time, returns nothing and gives no cancellation
    handle; the callback joins the pending ones. *)
Definition timer_Put (f : Task) (deadline : Time) : M unit :=
  log (EvPut f deadline) ;;
  (fun w => Ok tt (set_sched (sched w ++ [(f, deadline)]) w)).

(** [close(p.die)]: closing a closed channel panics. *)
Definition close_die : M unit :=
  p <- get_peer ;;
  match die p with
  | ChanClosed => panic "close of closed channel"
  | ChanOpen => log EvCloseDie ;; modify_peer (set_die ChanClosed)
  end.

(** [p.dieOnce.Do(f)]: [f] runs on the first call only. *)
Definition dieOnce_Do (f : M unit) : M unit :=
  p <- get_peer ;;
  if dieOnce p then ret tt
  else defer (modify_peer (set_dieOnce true)) f.

(** [p.c.ReceiveMessage(msg, now)] *)
Definition c_ReceiveMessage (msg : list byte) (now : Time) : M error :=
  log (EvReceiveMessage msg now) ;;
  p <- get_peer ;;
  let '(c', err) := Consensus.ReceiveMessage (c p) msg now in
  modify_peer (set_c c') ;;
  ret err.

(** [p.c.Update(now)] *)
Definition c_Update (now : Time) : M error :=
  log (EvEngineUpdate now) ;;
  p <- get_peer ;;
  let '(c', err) := Consensus.Update (c p) now in
  modify_peer (set_c c') ;;
  ret err.

(** *** The methods of [IPCPeer] *)

(** [NewIPCPeer(c, latency)] *)
Definition NewIPCPeer (c0 : C) (latency0 : Duration) : IPCPeer :=
  {| c := c0; Mutex := false; latency := latency0; die := ChanOpen;
     dieOnce := false; msgCount := 0; bytesCount := 0;
     minLatency := Int64.MaxInt64; maxLatency := 0; totalLatency := 0 |}.

Definition GetPublicKey : M (Z * Z) :=
  p <- get_peer ;; ret (Consensus.PublicKey (c p)).

Definition GetMessageCount : M Z :=
  Lock ;;
  defer Unlock (p <- get_peer ;; ret (msgCount p)).

Definition GetBytesCount : M Z :=
  Lock ;;
  defer Unlock (p <- get_peer ;; ret (bytesCount p)).

Definition Propose (s : State) : M unit :=
  Lock ;;
  defer Unlock (modify_peer (fun p => set_c (Consensus.Propose (c p) s) p)).

Definition GetLatestState : M (Z * Z * State) :=
  Lock ;;
  defer Unlock (p <- get_peer ;; ret (Consensus.CurrentState (c p))).

Definition GetLatencies : M (Duration * Duration * Duration) :=
  Lock ;;
  defer Unlock
    (p <- get_peer ;; ret (minLatency p, maxLatency p, totalLatency p)).

(** The arithmetic of [delay]:
    [time.Duration(0.1*z*float64(latency)) + latency]. *)
Definition delay_of (conv : Float64.float64 -> Z)
    (latency0 : Duration) (z : Float64.float64) : Duration :=
  Int64.add
    (Float64.to_int64 conv
       (Float64.mul (Float64.mul Float64.c0_1 z) (Float64.of_int latency0)))
    latency0.

(** [p.delay()] *)
Definition delay : M Duration :=
  z <- rand_NormFloat64 ;;
  p <- get_peer ;;
  fun w => Ok (delay_of (env_conv (env w)) (latency p) z) w.

(** [int64(len(msg))] *)
Definition len64 (msg : list byte) : Z := Int64.wrap (Z.of_nat (List.length msg)).

(** The closure [txDelay] built by [Send], with its captured [msg] and
    [delay]. *)
Definition txDelay (msg : list byte) (delay0 : Duration) : M unit :=
  Lock ;;
  defer Unlock
    (p <- get_peer ;;
     (if minLatency p >? delay0
      then modify_peer (set_minLatency delay0) else ret tt) ;;
     p <- get_peer ;;
     (if maxLatency p <? delay0
      then modify_peer (set_maxLatency delay0) else ret tt) ;;
     modify_peer (fun p => set_totalLatency (Int64.add (totalLatency p) delay0) p) ;;
     modify_peer (fun p => set_msgCount (Int64.add (msgCount p) 1) p) ;;
     modify_peer (fun p => set_bytesCount (Int64.add (bytesCount p) (len64 msg)) p) ;;
     now <- time_Now ;;
     err <- c_ReceiveMessage msg now ;;
     match err with
     | Some _ => ret tt
     | None => ret tt
     end).

(** [p.Send(msg)] *)
Definition Send (msg : list byte) : M error :=
  delay0 <- delay ;;
  now <- time_Now ;;
  timer_Put (TxDelay msg delay0) (time_Add now delay0) ;;
  ret None.

(** [p.Update()] *)
Definition Update : M unit :=
  Lock ;;
  defer Unlock
    (p <- get_peer ;;
     match die p with
     | ChanClosed => ret tt
     | ChanOpen =>
         now <- time_Now ;;
         _ <- c_Update now ;;
         now' <- time_Now ;;
         timer_Put UpdateTask (time_Add now' (20 * Millisecond))
     end).

(** [p.Close()] *)
Definition Close : M unit := dieOnce_Do close_die.

(** *** The scheduler running a pending callback *)

Definition run_task (f : Task) : M unit :=
  match f with
  | TxDelay msg delay0 => txDelay msg delay0
  | UpdateTask => Update
  end.

Fixpoint remove_nth {A} (i : nat) (l : list A) : list A :=
  match i, l with
  | _, [] => []
  | O, _ :: l' => l'
  | S i', x :: l' => x :: remove_nth i' l'
  end.

(** Modelled from the spec: the scheduler's executor.  It takes pending
    callback number [i] and runs it; with no such callback nothing
    happens.  Any pending callback may be the next to run, whatever its
    fire time: the runs of a scheduler that waits for the fire time are
    among these. *)
Definition fire (i : nat) : M unit :=
  fun w =>
    match nth_error (sched w) i with
    | Some (f, _) =>
        (log (EvFire f) ;; run_task f) (set_sched (remove_nth i (sched w)) w)
    | None => Ok tt w
    end.

(** *** Runs: what the owner, the test harness and the scheduler do

    One constructor per method of [IPCPeer], and [OpFire] for the
    scheduler.  [RemoteAddr] formats the address of the transport in
    memory and reads no field; it has no counterpart here. *)

Inductive Op : Type :=
| OpSend (msg : list byte)
| OpUpdate
| OpClose
| OpFire (i : nat)
| OpGetPublicKey
| OpGetMessageCount
| OpGetBytesCount
| OpGetLatencies
| OpPropose (s : State)
| OpGetLatestState.

Inductive Ret : Type :=
| RUnit
| RError (e : error)
| RInt64 (n : Z)
| RLatencies (min max total : Duration)
| RState (height round : Z) (data : State)
| RKey (k : Z * Z).

Definition step (o : Op) : M Ret :=
  match o with
  | OpSend msg => e <- Send msg ;; ret (RError e)
  | OpUpdate => Update ;; ret RUnit
  | OpClose => Close ;; ret RUnit
  | OpFire i => fire i ;; ret RUnit
  | OpGetPublicKey => k <- GetPublicKey ;; ret (RKey k)
  | OpGetMessageCount => n <- GetMessageCount ;; ret (RInt64 n)
  | OpGetBytesCount => n <- GetBytesCount ;; ret (RInt64 n)
  | OpGetLatencies =>
      r <- GetLatencies ;;
      let '(a, b, t) := r in ret (RLatencies a b t)
  | OpPropose s => Propose s ;; ret RUnit
  | OpGetLatestState =>
      r <- GetLatestState ;;
      let '(h, r', s) := r in ret (RState h r' s)
  end.

Fixpoint exec (ops : list Op) : M (list Ret) :=
  match ops with
  | [] => ret []
  | o :: ops' => r <- step o ;; rs <- exec ops' ;; ret (r :: rs)
  end.

(** The world right after [NewIPCPeer(c, latency)]. *)
Definition boot (e : Env) (c0 : C) (latency0 : Duration) : World :=
  {| peer := NewIPCPeer c0 latency0; sched := []; env := e;
     clock_reads := 0; rand_reads := 0; trace := [] |}.

(** *** What a trace tells *)

(** The deliveries the scheduler has started, oldest first: payload and
    recorded delay of every fired [txDelay] closure. *)
Fixpoint deliveries (tr : list Logged) : list (list byte * Duration) :=
  match tr with
  | [] => []
  | {| ev := EvFire (TxDelay msg d) |} :: tr' => (msg, d) :: deliveries tr'
  | _ :: tr' => deliveries tr'
  end.

Definition recorded_delays (w : World) : list Duration :=
  map snd (deliveries (trace w)).

Definition delivered_bytes (w : World) : list Z :=
  map (fun md => Z.of_nat (List.length (fst md))) (deliveries (trace w)).

Definition sumZ (l : list Z) : Z := fold_right Z.add 0 l.

Definition is_close_die (e : Event) : bool :=
  match e with EvCloseDie => true | _ => false end.
Definition is_engine_update (e : Event) : bool :=
  match e with EvEngineUpdate _ => true | _ => false end.
Definition is_put (e : Event) : bool :=
  match e with EvPut _ _ => true | _ => false end.

(** How many trace entries satisfy [f]. *)
Definition count (f : Event -> bool) (tr : list Logged) : nat :=
  List.length (filter (fun l => f (ev l)) tr).

Definition is_OpClose (o : Op) : bool :=
  match o with OpClose => true | _ => false end.

(** The delivery that [o] makes the scheduler run in [w], when it does. *)
Definition delivery_of (o : Op) (w : World) : option (list byte * Duration) :=
  match o with
  | OpFire i =>
      match nth_error (sched w) i with
      | Some (TxDelay msg d, _) => Some (msg, d)
      | _ => None
      end
  | _ => None
  end.

(** The scheduler running the delivery tasks of [l], one after the other:
    payload and sampled delay of each. *)
Fixpoint deliver_all (l : list (list byte * Duration)) : M unit :=
  match l with
  | [] => ret tt
  | (msg, d) :: l' => txDelay msg d ;; deliver_all l'
  end.

(** The mutex is free and the channel is closed exactly when the
    [sync.Once] has fired: the state between two method calls. *)
Definition settled (w : World) : Prop :=
  Mutex (peer w) = false /\
  (dieOnce (peer w) = true <-> die (peer w) = ChanClosed).

(** The statistics one delivery of [msg] with recorded delay [d] leaves
    behind, written as a function of the statistics before it
    ([step_stats] below relates it to [txDelay]). *)
Definition delivered (s : Stats) (msg : list byte) (d : Duration) : Stats :=
  {| st_msgCount := Int64.add (st_msgCount s) 1;
     st_bytesCount := Int64.add (st_bytesCount s) (len64 msg);
     st_minLatency := Z.min (st_minLatency s) d;
     st_maxLatency := Z.max (st_maxLatency s) d;
     st_totalLatency := Int64.add (st_totalLatency s) d |}.

(** One round of traffic: a message is sent and then delivered. *)
Definition round (msg : list byte) : list Op := [OpSend msg; OpFire 0].

Fixpoint rounds (n : nat) (msg : list byte) : list Op :=
  match n with
  | O => []
  | S n' => round msg ++ rounds n' msg
  end.

(** The world and the return values a run ends with (the starting world
    and no values if the run does not complete). *)
Definition world_after (ops : list Op) (w : World) : World :=
  match exec ops w with Ok _ w' => w' | _ => w end.
Definition results_after (ops : list Op) (w : World) : list Ret :=
  match exec ops w with Ok rs _ => rs | _ => [] end.

(** Worlds a fresh transport can get to. *)
Definition reachable (w : World) : Prop :=
  exists e c0 latency0 ops rs, exec ops (boot e c0 latency0) = Ok rs w.

End Transport.

Arguments IPCPeer C : clear implicits.
Arguments World C : clear implicits.
Arguments Result C A : clear implicits.
Arguments M C A : clear implicits.
Arguments Ok {C A} a w.
Arguments Panic {C A} why w.
Arguments Blocked {C A}.

(** ** A test double for the engine, and a fixed environment

    The engine counts the messages it accepts, the ticks it is given and
    remembers the last proposal; it rejects the empty message and every
    message that starts with a zero byte. *)

Module Demo.

Record Counter : Type := {
  accepted : Z;
  ticks : Z;
  proposed : State
}.

Definition zero : Counter := {| accepted := 0; ticks := 0; proposed := [] |}.

#[global] Instance engine : Consensus.Engine Counter := {|
  Consensus.ReceiveMessage := fun c0 msg _ =>
    match msg with
    | [] => (c0, ErrMessageIsEmpty)
    | x00 :: _ => (c0, ErrMessageSignature)
    | _ => ({| accepted := accepted c0 + 1; ticks := ticks c0;
               proposed := proposed c0 |}, None)
    end;
  Consensus.Update := fun c0 _ =>
    ({| accepted := accepted c0; ticks := ticks c0 + 1;
        proposed := proposed c0 |}, None);
  Consensus.Propose := fun c0 s =>
    {| accepted := accepted c0; ticks := ticks c0; proposed := s |};
  Consensus.CurrentState := fun c0 => (0, ticks c0, proposed c0);
  Consensus.PublicKey := fun _ => (1, 2)
|}.

(** The clock advances one millisecond per reading; every normal sample
    is [z]; conversions the language leaves open give [MinInt64], as on
    amd64. *)
Definition env_with (z : Float64.float64) : Env := {|
  env_now := fun k => 1000000 * Z.of_nat k;
  env_norm := fun _ => z;
  env_conv := fun _ => Int64.MinInt64
|}.

Definition env0 : Env := env_with (S754_zero false).

Definition hello : list byte := [x68; x65; x6c; x6c; x6f].
Definition bad : list byte := [x00; x01].

(** Fifty milliseconds of mean latency and the sample -12: every
    sampled delay is -10ms. *)
Definition env_neg : Env := env_with (Float64.of_int (-12)).
Definition fifty_ms : Duration := 50 * Millisecond.

Definition traffic : list Op :=
  [OpSend hello; OpSend bad; OpUpdate; OpFire 0; OpFire 0; OpClose;
   OpGetLatencies; OpClose; OpFire 0; OpGetMessageCount].

Definition busy : World Counter := world_after traffic (boot env_neg zero fifty_ms).

(** A transport that has sent two messages and delivered none. *)
Definition waiting : World Counter :=
  world_after [OpSend hello; OpSend bad; OpUpdate]
    (boot env_neg zero fifty_ms).

(** The mean latency is 2^62 ns and every normal sample is 0, so every
    sampled delay is 2^62 ns. *)
Definition long_latency : Duration := 2 ^ 62.
Definition two_deliveries : list Op :=
  [OpSend hello; OpSend hello; OpFire 0; OpFire 0].
Definition overflowed : World Counter :=
  world_after two_deliveries (boot env0 zero long_latency).

(** A payload of 2^30 zero bytes, and 2^33 - 1 rounds of it. *)
Definition gigabyte : list byte := repeat x00 (Z.to_nat (2 ^ 30)).
Definition many : nat := Z.to_nat (2 ^ 33 - 1).

(** Two messages waiting, then both delivered and the transport closed. *)
Definition drain : list Op := [OpFire 0; OpFire 0; OpClose].
Definition drained : World Counter := world_after drain waiting.

End Demo.

(** ** Reading more off a trace and off the scheduler *)

(** The delivery tasks [Send] has handed to the scheduler, oldest first:
    payload and sampled delay. *)
Definition sent_of (l : Logged) : list (list byte * Duration) :=
  match ev l with
  | EvPut (TxDelay msg d) _ => [(msg, d)]
  | _ => []
  end.
Definition sent (tr : list Logged) : list (list byte * Duration) :=
  flat_map sent_of tr.

(** The delivery tasks that wait in the scheduler. *)
Definition pending_of (x : Task * Time) : list (list byte * Duration) :=
  match fst x with
  | TxDelay msg d => [(msg, d)]
  | UpdateTask => []
  end.
Definition pending (q : list (Task * Time)) : list (list byte * Duration) :=
  flat_map pending_of q.

(** The calls of the engine's [ReceiveMessage], oldest first: payload and
    timestamp. *)
Definition received_of (l : Logged) : list (list byte * Time) :=
  match ev l with
  | EvReceiveMessage msg t => [(msg, t)]
  | _ => []
  end.
Definition received (tr : list Logged) : list (list byte * Time) :=
  flat_map received_of tr.

(** The [Update] callbacks that wait in the scheduler. *)
Definition is_tick (x : Task * Time) : bool :=
  match fst x with
  | UpdateTask => true
  | TxDelay _ _ => false
  end.
Definition pending_ticks (q : list (Task * Time)) : nat :=
  List.length (filter is_tick q).

Definition is_OpUpdate (o : Op) : bool :=
  match o with OpUpdate => true | _ => false end.

(** Walking a trace with the state of the mutex: [Lock] must find it
    free, [Unlock] must find it held, and the calls into the engine and
    the re-submission of [Update] must happen while it is held.  The
    result is the state of the mutex at the end, or [None] when the trace
    breaks one of these rules. *)
Fixpoint lock_discipline (held : bool) (tr : list Logged) : option bool :=
  match tr with
  | [] => Some held
  | l :: tr' =>
      match ev l with
      | EvLock => if held then None else lock_discipline true tr'
      | EvUnlock => if held then lock_discipline false tr' else None
      | EvReceiveMessage _ _ | EvEngineUpdate _ | EvPut UpdateTask _ =>
          if held then lock_discipline held tr' else None
      | EvCloseDie | EvPut (TxDelay _ _) _ | EvFire _ => lock_discipline held tr'
      end
  end.

(** The extremes [GetLatencies] reports, computed from the recorded
    delays: the least of [MaxInt64] and the delays, the greatest of 0 and
    the delays. *)
Definition least (l : list Duration) : Duration := fold_right Z.min Int64.MaxInt64 l.
Definition greatest (l : list Duration) : Duration := fold_right Z.max 0 l.

(** The payloads a run passes to [Send], in order. *)
Definition sends (ops : list Op) : list (list byte) :=
  flat_map (fun o => match o with OpSend msg => [msg] | _ => [] end) ops.

(** The payloads of [l], numbered from [k]. *)
Definition numbered (k : nat) (l : list (list byte)) : list (list byte * nat) :=
  combine l (seq k (List.length l)).

(** Whether [o] makes the scheduler run a pending [Update] callback. *)
Definition fires_tick {C : Type} (o : Op) (w : World C) : bool :=
  match o with
  | OpFire i =>
      match nth_error (sched w) i with
      | Some (UpdateTask, _) => true
      | _ => false
      end
  | _ => false
  end.

(** The floats that are neither infinite nor NaN. *)
Definition finite (f : Float64.float64) : Prop :=
  match f with
  | S754_zero _ | S754_finite _ _ _ => True
  | S754_infinity _ | S754_nan => False
  end.

(** ** More worlds of the test double *)

(** [Demo.waiting] at a moment when some goroutine holds the mutex. *)
Definition waiting_locked : World Demo.Counter :=
  set_peer (set_Mutex true (peer Demo.waiting)) Demo.waiting.

(** Of the two waiting messages the second one has been delivered. *)
Definition half_delivered : World Demo.Counter :=
  world_after [OpFire 1] Demo.waiting.

(** * Facts *)

(** ** Arithmetic of [int64] *)

Module Int64Facts.
Import Int64.

Lemma wrap_in_range x : in_range (wrap x).
Proof.
  unfold in_range, wrap, MinInt64, MaxInt64, modulus.
  pose proof (Z.mod_pos_bound (x + 2 ^ 63) (2 ^ 64) ltac:(lia)). lia.
Qed.

Lemma wrap_small x : in_range x -> wrap x = x.
Proof.
  unfold in_range, wrap, MinInt64, MaxInt64, modulus. intros H.
  rewrite Z.mod_small by lia. lia.
Qed.

Lemma wrap_wrap_add_l x y : wrap (wrap x + y) = wrap (x + y).
Proof.
  unfold wrap, modulus.
  replace ((x + 2 ^ 63) mod 2 ^ 64 - 2 ^ 63 + y + 2 ^ 63)
    with ((x + 2 ^ 63) mod 2 ^ 64 + y) by lia.
  replace (x + y + 2 ^ 63) with ((x + 2 ^ 63) + y) by lia.
  rewrite Zplus_mod_idemp_l. reflexivity.
Qed.

Lemma wrap_wrap_add_r x y : wrap (x + wrap y) = wrap (x + y).
Proof. rewrite (Z.add_comm x (wrap y)), wrap_wrap_add_l. f_equal. lia. Qed.

End Int64Facts.

(** ** Arithmetic of binary64, as far as [delay] needs it *)

Module Float64Facts.
Import Float64.

Lemma digits_bounds p :
  2 ^ (Z.pos (digits2_pos p) - 1) <= Z.pos p < 2 ^ Z.pos (digits2_pos p).
Proof.
  induction p as [p IH|p IH|]; cbn [digits2_pos].
  - rewrite Pos2Z.inj_succ, (Pos2Z.inj_xI p).
    replace (Z.succ (Z.pos (digits2_pos p)) - 1)
      with (Z.succ (Z.pos (digits2_pos p) - 1)) by lia.
    rewrite !Z.pow_succ_r by lia. lia.
  - rewrite Pos2Z.inj_succ, (Pos2Z.inj_xO p).
    replace (Z.succ (Z.pos (digits2_pos p)) - 1)
      with (Z.succ (Z.pos (digits2_pos p) - 1)) by lia.
    rewrite !Z.pow_succ_r by lia. lia.
  - cbn. lia.
Qed.

Lemma digits_unique p k :
  2 ^ (k - 1) <= Z.pos p < 2 ^ k -> Z.pos (digits2_pos p) = k.
Proof.
  intros [Hlo Hhi]. pose proof (digits_bounds p) as [Dlo Dhi].
  assert (0 < k).
  { destruct (Z_lt_le_dec 0 k) as [|Hk]; [assumption|]. exfalso.
    destruct k as [|k|k]; cbn in Hhi; lia. }
  destruct (Z.lt_trichotomy (Z.pos (digits2_pos p)) k) as [Hlt|[Heq|Hgt]];
    [exfalso|exact Heq|exfalso].
  - assert (2 ^ Z.pos (digits2_pos p) <= 2 ^ (k - 1)) by (apply Z.pow_le_mono_r; lia).
    lia.
  - assert (2 ^ k <= 2 ^ (Z.pos (digits2_pos p) - 1)) by (apply Z.pow_le_mono_r; lia).
    lia.
Qed.

Lemma iter_pos_nat {A} (f : A -> A) n : forall x,
  iter_pos f n x = Nat.iter (Pos.to_nat n) f x.
Proof.
  induction n as [n IH|n IH|]; intros x; cbn [iter_pos].
  - rewrite !IH, Pos2Nat.inj_xI.
    replace (S (2 * Pos.to_nat n)) with (Pos.to_nat n + S (Pos.to_nat n))%nat by lia.
    rewrite Nat.iter_add, Nat.iter_succ_r. reflexivity.
  - rewrite !IH, Pos2Nat.inj_xO.
    replace (2 * Pos.to_nat n)%nat with (Pos.to_nat n + Pos.to_nat n)%nat by lia.
    rewrite Nat.iter_add. reflexivity.
  - reflexivity.
Qed.

Lemma shr_1_m r : 0 <= shr_m r -> shr_m (shr_1 r) = shr_m r / 2.
Proof.
  destruct r as [m r s]. cbn [shr_m]. intros Hm.
  destruct m as [|p|p]; [reflexivity| |lia].
  rewrite <- Z.div2_div. destruct p; reflexivity.
Qed.

Lemma shr_iter_m k : forall r,
  0 <= shr_m r -> shr_m (Nat.iter k shr_1 r) = shr_m r / 2 ^ Z.of_nat k.
Proof.
  induction k as [|k IH]; intros r Hr.
  - cbn. rewrite Z.div_1_r. reflexivity.
  - rewrite Nat.iter_succ, shr_1_m.
    + rewrite IH by assumption. rewrite Nat2Z.inj_succ, Z.pow_succ_r by lia.
      rewrite Z.div_div by lia. f_equal. lia.
    + rewrite IH by assumption. apply Z.div_pos; lia.
Qed.

Lemma round_nearest_even_cases q l :
  round_nearest_even q l = q \/ round_nearest_even q l = q + 1.
Proof.
  destruct l as [|[]]; cbn; auto. destruct (Z.even q); auto.
Qed.

Lemma round_aux_53 s mz ez :
  digits2_pos mz = 53%positive -> -1074 <= ez <= 971 ->
  binary_round_aux prec emax s (Z.pos mz) ez loc_Exact = S754_finite s mz ez.
Proof.
  intros Hd He. unfold binary_round_aux, shr_fexp, fexp, emin, prec, emax.
  cbn [Zdigits2 shr_record_of_loc]. rewrite Hd.
  replace (Z.max (53 + ez - 53) (3 - 1024 - 53) - ez) with 0 by lia.
  cbn [shr shr_m loc_of_shr_record round_nearest_even Zdigits2 shr_record_of_loc].
  rewrite Hd.
  replace (Z.max (53 + ez - 53) (3 - 1024 - 53) - ez) with 0 by lia.
  cbn [shr shr_m].
  replace (ez <=? 1024 - 53) with true by (symmetry; apply Z.leb_le; lia).
  reflexivity.
Qed.

(** Rounding a mantissa of 53 + n bits: the quotient by 2^n or its
    successor, renormalized. *)
Lemma round_aux_long s P e n :
  0 < n -> 2 ^ (52 + n) <= Z.pos P < 2 ^ (53 + n) -> -1074 <= e + n <= 970 ->
  exists mz ez,
    binary_round_aux prec emax s (Z.pos P) e loc_Exact = S754_finite s mz ez /\
    digits2_pos mz = 53%positive /\
    e + n <= ez <= e + n + 1 /\
    (Z.pos mz * 2 ^ (ez - (e + n)) = Z.pos P / 2 ^ n \/
     Z.pos mz * 2 ^ (ez - (e + n)) = Z.pos P / 2 ^ n + 1).
Proof.
  intros Hn HP He.
  assert (Hd : Z.pos (digits2_pos P) = 53 + n).
  { apply digits_unique. replace (53 + n - 1) with (52 + n) by lia. exact HP. }
  assert (Hq : 2 ^ 52 <= Z.pos P / 2 ^ n < 2 ^ 53).
  { rewrite !Z.pow_add_r in HP by lia. split.
    - apply Z.div_le_lower_bound; lia.
    - apply Z.div_lt_upper_bound; lia. }
  unfold binary_round_aux, shr_fexp at 1, fexp, emin, prec, emax.
  cbn [Zdigits2 shr_record_of_loc]. rewrite Hd.
  replace (Z.max (53 + n + e - 53) (3 - 1024 - 53) - e) with n by lia.
  destruct n as [|n'|n']; try lia. cbn [shr].
  rewrite iter_pos_nat.
  set (r1 := Nat.iter (Pos.to_nat n') shr_1 _).
  assert (Hr1 : shr_m r1 = Z.pos P / 2 ^ Z.pos n').
  { unfold r1. rewrite shr_iter_m by (cbn; lia). cbn [shr_m].
    rewrite positive_nat_Z. reflexivity. }
  set (q := Z.pos P / 2 ^ Z.pos n') in *.
  destruct (round_nearest_even_cases (shr_m r1) (loc_of_shr_record r1)) as [Hv|Hv];
    rewrite Hv, Hr1.
  - (* rounded down *)
    destruct q as [|q'|q'] eqn:Eq; try lia.
    exists q', (e + Z.pos n').
    assert (Hdq : digits2_pos q' = 53%positive).
    { apply Pos2Z.inj. apply digits_unique. lia. }
    pose proof (round_aux_53 s q' (e + Z.pos n') Hdq ltac:(lia)) as H53.
    unfold binary_round_aux, shr_fexp, fexp, emin, prec, emax in H53.
    cbn [Zdigits2 shr_record_of_loc] in H53. rewrite Hdq in H53.
    replace (Z.max (53 + (e + Z.pos n') - 53) (3 - 1024 - 53) - (e + Z.pos n'))
      with 0 in H53 by lia.
    cbn [shr shr_m loc_of_shr_record round_nearest_even Zdigits2 shr_record_of_loc] in H53.
    unfold shr_fexp, fexp, emin. cbn [Zdigits2 shr_record_of_loc].
    rewrite Hdq in *. 
    split; [exact H53|]. split; [reflexivity|]. split; [lia|].
    left. rewrite Z.sub_diag. cbn. lia.
  - (* rounded up *)
    destruct (Z.eq_dec (q + 1) (2 ^ 53)) as [Hc|Hc].
    + rewrite Hc. exists 4503599627370496%positive, (e + Z.pos n' + 1).
      unfold shr_fexp, fexp, emin. cbn [Zdigits2 shr_record_of_loc].
      change (Z.pos (digits2_pos (Z.to_pos (2 ^ 53)))) with 54.
      change (2 ^ 53) with (Z.pos 9007199254740992).
      cbn [Zdigits2 digits2_pos Pos.succ]. 
      replace (Z.max (54 + (e + Z.pos n') - 53) (3 - 1024 - 53) - (e + Z.pos n'))
        with 1 by lia.
      cbn [shr iter_pos shr_1 shr_m shr_record_of_loc orb].
      replace (e + Z.pos n' + 1 <=? 1024 - 53) with true
        by (symmetry; apply Z.leb_le; lia).
      split; [reflexivity|]. split; [reflexivity|]. split; [lia|].
      right. replace (e + Z.pos n' + 1 - (e + Z.pos n')) with 1 by lia.
      change (Z.pos 4503599627370496 * 2 ^ 1) with (2 ^ 53). lia.
    + destruct (q + 1) as [|v'|v'] eqn:Ev; try lia.
      exists v', (e + Z.pos n').
      assert (Hdv : digits2_pos v' = 53%positive).
      { apply Pos2Z.inj. apply digits_unique. lia. }
      pose proof (round_aux_53 s v' (e + Z.pos n') Hdv ltac:(lia)) as H53.
      unfold binary_round_aux, shr_fexp, fexp, emin, prec, emax in H53.
      cbn [Zdigits2 shr_record_of_loc] in H53. rewrite Hdv in H53.
      replace (Z.max (53 + (e + Z.pos n') - 53) (3 - 1024 - 53) - (e + Z.pos n'))
        with 0 in H53 by lia.
      cbn [shr shr_m loc_of_shr_record round_nearest_even Zdigits2 shr_record_of_loc] in H53.
      unfold shr_fexp, fexp, emin. cbn [Zdigits2 shr_record_of_loc].
      rewrite Hdv in *.
      split; [exact H53|]. split; [reflexivity|]. split; [lia|].
      right. rewrite Z.sub_diag. cbn. lia.
Qed.

Lemma digits_iter_xO p k :
  digits2_pos (Pos.iter xO p k) = (digits2_pos p + k)%positive.
Proof.
  induction k as [|k IH] using Pos.peano_ind.
  - cbn. rewrite Pos.add_1_r. reflexivity.
  - rewrite Pos.iter_succ. cbn. rewrite IH, Pos.add_succ_r. reflexivity.
Qed.

(** [float64(m)] for an integer of 54 to 63 bits: [m] with its low
    [n] bits rounded away. *)
Lemma of_int_big p :
  2 ^ 53 <= Z.pos p < 2 ^ 63 ->
  exists mz ez,
    of_int (Z.pos p) = S754_finite false mz ez /\
    digits2_pos mz = 53%positive /\
    let n := Z.pos (digits2_pos p) - 53 in
    let q := Z.pos p / 2 ^ n in
    1 <= n <= 10 /\ 2 ^ 52 <= q < 2 ^ 53 /\
    q * 2 ^ n <= Z.pos p < (q + 1) * 2 ^ n /\
    ((ez = n /\ Z.pos mz = q) \/
     (ez = n /\ Z.pos mz = q + 1) \/
     (ez = n + 1 /\ Z.pos mz = 2 ^ 52 /\ q + 1 = 2 ^ 53)) /\
    2 ^ (52 + n) <= Z.pos mz * 2 ^ ez <= 2 ^ (53 + n).
Proof.
  intros Hp. pose proof (digits_bounds p) as [Dlo Dhi].
  set (d := Z.pos (digits2_pos p)) in *.
  assert (Hd : 54 <= d <= 63).
  { split.
    - destruct (Z_lt_le_dec d 54) as [Hlt|]; [exfalso|assumption].
      assert (2 ^ d <= 2 ^ 53) by (apply Z.pow_le_mono_r; lia). lia.
    - destruct (Z_lt_le_dec 63 d) as [Hlt|]; [exfalso|assumption].
      assert (2 ^ 63 <= 2 ^ (d - 1)) by (apply Z.pow_le_mono_r; lia). lia. }
  destruct (round_aux_long false p 0 (d - 53)) as (mz & ez & Hr & Hdig & Hez & Hv);
    [lia | | lia |].
  { replace (52 + (d - 53)) with (d - 1) by lia.
    replace (53 + (d - 53)) with d by lia. lia. }
  exists mz, ez. split; [|split; [exact Hdig|]].
  - unfold of_int, binary_normalize, binary_round, shl_align, fexp, emin.
    rewrite Z.add_0_r. fold d.
    replace (Z.max (d - prec) (3 - emax - prec)) with (d - 53)
      by (unfold prec, emax; lia).
    rewrite Z.sub_0_r. destruct (d - 53) as [|k|k] eqn:Hk; try lia. exact Hr.
  - cbn zeta. set (n := d - 53) in *. set (q := Z.pos p / 2 ^ n) in *.
    assert (Hn : 0 < 2 ^ n) by (apply Z.pow_pos_nonneg; lia).
    assert (Hq : 2 ^ 52 <= q < 2 ^ 53).
    { replace d with (53 + n) in Dlo, Dhi by lia.
      replace (53 + n - 1) with (52 + n) in Dlo by lia.
      rewrite Z.pow_add_r in Dlo, Dhi by lia. unfold q. split.
      - apply Z.div_le_lower_bound; lia.
      - apply Z.div_lt_upper_bound; lia. }
    assert (Hqp : q * 2 ^ n <= Z.pos p < (q + 1) * 2 ^ n).
    { unfold q. pose proof (Z.div_mod (Z.pos p) (2 ^ n) ltac:(lia)).
      pose proof (Z.mod_pos_bound (Z.pos p) (2 ^ n) Hn). lia. }
    split; [lia|]. split; [exact Hq|]. split; [exact Hqp|].
    pose proof (digits_bounds mz) as Dmz. rewrite Hdig in Dmz.
    replace (0 + n) with n in * by lia.
    assert (Hcase : (ez = n /\ Z.pos mz = q) \/
                    (ez = n /\ Z.pos mz = q + 1) \/
                    (ez = n + 1 /\ Z.pos mz = 2 ^ 52 /\ q + 1 = 2 ^ 53)).
    { assert (ez = n \/ ez = n + 1) as [-> | ->] by lia.
      - rewrite Z.sub_diag, Z.pow_0_r, Z.mul_1_r in Hv.
        destruct Hv; [left|right; left]; auto.
      - replace (n + 1 - n) with 1 in Hv by lia. rewrite Z.pow_1_r in Hv.
        right; right. change (2 ^ (53 - 1)) with (2 ^ 52) in Dmz. lia. }
    split; [exact Hcase|].
    rewrite !(Z.pow_add_r 2 _ n) by lia.
    destruct Hcase as [[-> ->]|[[-> ->]|(-> & -> & Hc)]].
    + nia.
    + nia.
    + rewrite Z.pow_add_r, Z.pow_1_r by lia. nia.
Qed.

(** Multiplying a 53-bit mantissa by minus a power of two is exact. *)
Lemma mul_minus_pow2 ec mz ez :
  digits2_pos mz = 53%positive -> -1074 <= ez + ec + 52 <= 971 ->
  mul (S754_finite true 4503599627370496 ec) (S754_finite false mz ez) =
    S754_finite true mz (ez + ec + 52).
Proof.
  intros Hd He. unfold mul, SFmul. cbn [xorb].
  change (Pos.mul 4503599627370496 mz) with (Pos.iter xO mz 52).
  unfold binary_round_aux, shr_fexp, fexp, emin, prec, emax.
  cbn [Zdigits2 shr_record_of_loc]. rewrite digits_iter_xO, Hd.
  replace (Z.max (Z.pos (53 + 52) + (ec + ez) - 53) (3 - 1024 - 53) - (ec + ez))
    with 52 by lia.
  cbn [shr iter_pos Pos.iter shr_1 shr_m loc_of_shr_record orb
       round_nearest_even Zdigits2 shr_record_of_loc].
  rewrite Hd.
  replace (Z.max (53 + (ec + ez + 52) - 53) (3 - 1024 - 53) - (ec + ez + 52))
    with 0 by lia.
  cbn [shr shr_m].
  replace (ec + ez + 52 <=? 1024 - 53) with true by (symmetry; apply Z.leb_le; lia).
  f_equal. lia.
Qed.

(** The tenth of -(10 + 2^-49) is -(1 + 2^-52). *)
Lemma tenth_below_minus_ten :
  mul c0_1 below_minus_ten = S754_finite true 4503599627370497 (-52).
Proof. vm_compute. reflexivity. Qed.

Lemma tenth_of_minus_ten :
  mul c0_1 (of_int (-10)) = S754_finite true 4503599627370496 (-52).
Proof. vm_compute. reflexivity. Qed.

Lemma tenth_of_minus_twenty :
  mul c0_1 (of_int (-20)) = S754_finite true 4503599627370496 (-51).
Proof. vm_compute. reflexivity. Qed.

(** Multiplying by -(1 + 2^-52) moves a 53-bit mantissa one or two units
    up. *)
Lemma mul_next_above_one mz ez :
  2 ^ 52 <= Z.pos mz <= 2 ^ 53 - 2 -> 0 <= ez <= 900 ->
  exists mz' ez',
    mul (S754_finite true 4503599627370497 (-52)) (S754_finite false mz ez) =
      S754_finite true mz' ez' /\
    ez <= ez' /\
    (Z.pos mz' * 2 ^ ez' = (Z.pos mz + 1) * 2 ^ ez \/
     Z.pos mz' * 2 ^ ez' = (Z.pos mz + 2) * 2 ^ ez).
Proof.
  intros Hm He. unfold mul, SFmul. cbn [xorb].
  assert (HP : Z.pos (4503599627370497 * mz) = Z.pos mz * 2 ^ 52 + Z.pos mz).
  { rewrite Pos2Z.inj_mul. change (Z.pos 4503599627370497) with (2 ^ 52 + 1). lia. }
  destruct (round_aux_long true (4503599627370497 * mz) (-52 + ez) 52)
    as (mz' & ez' & Hr & _ & Hez & Hv); [lia | | lia |].
  { rewrite HP. change (2 ^ (52 + 52)) with (2 ^ 52 * 2 ^ 52).
    change (2 ^ (53 + 52)) with (2 ^ 53 * 2 ^ 52). lia. }
  assert (HQ : Z.pos (4503599627370497 * mz) / 2 ^ 52 = Z.pos mz + 1).
  { rewrite HP. rewrite Z.div_add_l by lia.
    replace (Z.pos mz / 2 ^ 52) with 1; [reflexivity|].
    apply Z.div_unique with (r := Z.pos mz - 2 ^ 52); lia. }
  rewrite HQ in Hv. replace (-52 + ez + 52) with ez in * by lia.
  exists mz', ez'. split; [exact Hr|]. split; [lia|].
  assert (Hpow : 2 ^ ez' = 2 ^ (ez' - ez) * 2 ^ ez).
  { rewrite <- Z.pow_add_r by lia. f_equal. lia. }
  rewrite Hpow, Z.mul_assoc.
  destruct Hv as [Hv|Hv]; [left|right]; rewrite Hv; lia.
Qed.

Lemma mul_next_above_one_top :
  mul (S754_finite true 4503599627370497 (-52))
      (S754_finite false 9007199254740991 10) =
    S754_finite true 4503599627370496 11.
Proof. vm_compute. reflexivity. Qed.

Lemma trunc_negative mz ez :
  0 <= ez -> trunc (S754_finite true mz ez) = Some (- (Z.pos mz * 2 ^ ez)).
Proof.
  intros He. unfold trunc.
  replace (0 <=? ez) with true by (symmetry; apply Z.leb_le; lia). reflexivity.
Qed.

Lemma value_iter_xO p k :
  Z.pos (Pos.iter xO p k) = Z.pos p * 2 ^ Z.pos k.
Proof.
  induction k as [|k IH] using Pos.peano_ind.
  - cbn. lia.
  - rewrite Pos.iter_succ, (Pos2Z.inj_xO (Pos.iter xO p k)), IH, Pos2Z.inj_succ,
      Z.pow_succ_r by lia.
    lia.
Qed.

Lemma digits_small p : Z.pos p < 2 ^ 53 -> Z.pos (digits2_pos p) <= 53.
Proof.
  intros H. pose proof (digits_bounds p) as [Hlo _].
  destruct (Z_le_gt_dec (Z.pos (digits2_pos p)) 53) as [|Hgt]; [assumption|].
  exfalso.
  assert (2 ^ 53 <= 2 ^ (Z.pos (digits2_pos p) - 1))
    by (apply Z.pow_le_mono_r; lia).
  lia.
Qed.

(** [float64(m)] for a positive integer below 2^53: the integer itself,
    with the mantissa shifted to 53 bits. *)
Lemma of_int_small p :
  Z.pos p < 2 ^ 53 ->
  exists mz ez,
    of_int (Z.pos p) = S754_finite false mz ez /\
    digits2_pos mz = 53%positive /\ -52 <= ez <= 0 /\
    Z.pos mz = Z.pos p * 2 ^ (- ez).
Proof.
  intros Hp. pose proof (digits_small p Hp) as Hd.
  unfold of_int, binary_normalize, binary_round, shl_align, fexp, emin, prec, emax.
  rewrite Z.add_0_r.
  replace (Z.max (Z.pos (digits2_pos p) - 53) (3 - 1024 - 53))
    with (Z.pos (digits2_pos p) - 53) by lia.
  rewrite Z.sub_0_r.
  destruct (Z.pos (digits2_pos p) - 53) as [|k|k] eqn:Hk; try lia.
  - assert (Hdig : digits2_pos p = 53%positive) by (apply Pos2Z.inj; lia).
    exists p, 0. split; [|split; [exact Hdig|split; [lia|]]].
    + apply (round_aux_53 false p 0); [exact Hdig | lia].
    + cbn. lia.
  - assert (Hdig : digits2_pos (Pos.iter xO p k) = 53%positive).
    { rewrite digits_iter_xO. apply Pos2Z.inj. rewrite Pos2Z.inj_add. lia. }
    exists (Pos.iter xO p k), (Z.neg k).
    split; [|split; [exact Hdig|split; [lia|]]].
    + apply (round_aux_53 false _ (Z.neg k)); [exact Hdig | lia].
    + rewrite value_iter_xO. reflexivity.
Qed.

Lemma trunc_minus_two p mz ez :
  -52 <= ez <= 0 -> Z.pos mz = Z.pos p * 2 ^ (- ez) ->
  trunc (S754_finite true mz (ez + 1)) = Some (- (2 * Z.pos p)).
Proof.
  intros He Hv. unfold trunc. rewrite Hv. f_equal. f_equal.
  destruct (0 <=? ez + 1) eqn:Hs.
  - apply Z.leb_le in Hs.
    assert (ez = 0 \/ ez = -1) as [-> | ->] by lia; cbn; lia.
  - apply Z.leb_gt in Hs.
    replace (- ez) with (Z.succ (- (ez + 1))) by lia.
    rewrite Z.pow_succ_r by lia.
    replace (Z.pos p * (2 * 2 ^ (- (ez + 1)))) with (2 * Z.pos p * 2 ^ (- (ez + 1))) by lia.
    apply Z.div_mul. apply Z.pow_nonzero; lia.
Qed.

End Float64Facts.

Ltac unfold_m :=
  unfold step, Send, Update, Close, fire, run_task, txDelay, GetPublicKey,
    GetMessageCount, GetBytesCount, GetLatencies, Propose, GetLatestState,
    delay, dieOnce_Do, close_die, c_ReceiveMessage, c_Update, timer_Put,
    rand_NormFloat64, time_Now, Lock, Unlock, log, modify_peer, get_peer,
    defer, bind, ret, panic in *.

Ltac crunch :=
  repeat (cbn in *;
    match goal with
    | |- context [match ?d with ChanOpen => _ | ChanClosed => _ end] =>
        destruct d eqn:?
    | |- context [match nth_error ?l ?i with Some _ => _ | None => _ end] =>
        destruct (nth_error l i) as [[[? ?|] ?]|] eqn:?
    | |- context [let '(_, _) := ?x in _] => destruct x eqn:?
    | |- context [if ?b then _ else _] => destruct b eqn:?
    | |- context [match ?x with Some _ => _ | None => _ end] => destruct x eqn:?
    end).

Ltac open_world w :=
  let p := fresh "p" in
  destruct w as [p ? ? ? ? ?]; destruct p; cbn in *; subst.

Ltac run_m := repeat (progress (unfold_m; crunch)).

Ltac order_hyps :=
  repeat match goal with
    | H : Z.gtb _ _ = _ |- _ => rewrite Z.gtb_ltb in H
    | H : Z.ltb _ _ = true |- _ => apply Z.ltb_lt in H
    | H : Z.ltb _ _ = false |- _ => apply Z.ltb_ge in H
    end.

Section TransportFacts.

Context {C : Type} {E : Consensus.Engine C}.

Lemma step_settled o w :
  settled w -> exists r w', step o w = Ok r w' /\ settled w'.
Proof.
  intros [Hm Hd]. open_world w.
  destruct o; run_m.
  all: try (eexists _, _; split; [reflexivity | split; cbn; tauto]).
  all: try (exfalso; destruct Hd as [H1 H2]; specialize (H2 eq_refl); discriminate).
  all: try (eexists _, _; split; [reflexivity | split; cbn; intuition congruence]).
Qed.

Lemma boot_settled e (c0 : C) latency0 : settled (boot e c0 latency0).
Proof. split; cbn; intuition congruence. Qed.

Lemma exec_settled ops : forall w,
  settled w -> exists rs w', exec ops w = Ok rs w' /\ settled w'.
Proof.
  induction ops as [|o ops IH]; intros w Hw; cbn.
  - exists [], w. split; [reflexivity | assumption].
  - destruct (step_settled o w Hw) as (r & w1 & Hs & Hw1).
    destruct (IH w1 Hw1) as (rs & w2 & He & Hw2).
    exists (r :: rs), w2. unfold bind, ret. rewrite Hs, He. auto.
Qed.

Lemma exec_cons o ops w rs w' :
  exec (o :: ops) w = Ok rs w' ->
  exists r w1 rs', step o w = Ok r w1 /\ exec ops w1 = Ok rs' w' /\ rs = r :: rs'.
Proof.
  cbn. unfold bind at 1. destruct (step o w) as [r w1| |]; try discriminate.
  unfold bind, ret. destruct (exec ops w1) as [rs' w2| |] eqn:He; try discriminate.
  intros H; inversion H; subst. exists r, w1, rs'. auto.
Qed.

Lemma exec_app ops1 : forall ops2 w rs w',
  exec (ops1 ++ ops2) w = Ok rs w' ->
  exists rs1 w1 rs2,
    exec ops1 w = Ok rs1 w1 /\ exec ops2 w1 = Ok rs2 w' /\ rs = rs1 ++ rs2.
Proof.
  induction ops1 as [|o ops1 IH]; intros ops2 w rs w' H.
  - exists [], w, rs. auto.
  - rewrite <- app_comm_cons in H.
    apply exec_cons in H as (r & w1 & rs' & Hs & He & ->).
    apply IH in He as (rs1 & w2 & rs2 & H1 & H2 & ->).
    exists (r :: rs1), w2, rs2. cbn. unfold bind, ret. rewrite Hs, H1. auto.
Qed.

Lemma exec_snoc ops o w rs w' :
  exec (ops ++ [o]) w = Ok rs w' ->
  exists rs1 w1 r,
    exec ops w = Ok rs1 w1 /\ step o w1 = Ok r w' /\ rs = rs1 ++ [r].
Proof.
  intros H. apply exec_app in H as (rs1 & w1 & rs2 & H1 & H2 & ->).
  apply exec_cons in H2 as (r & w2 & rs' & Hs & He & ->).
  cbn in He. inversion He; subst. exists rs1, w1, r. auto.
Qed.

(** Induction over the runs of a fresh transport: a property that holds
    after construction and is kept by every step on a settled world
    holds in every reachable world. *)
Lemma reachable_ind (P : World C -> Prop) :
  (forall e c0 latency0, P (boot e c0 latency0)) ->
  (forall o w r w', settled w -> P w -> step o w = Ok r w' -> P w') ->
  forall w, reachable w -> P w.
Proof.
  intros Hboot Hstep w (e & c0 & l0 & ops & rs & Hrun).
  revert w rs Hrun. induction ops as [|o ops IH] using rev_ind; intros w rs Hrun.
  - cbn in Hrun. inversion Hrun. apply Hboot.
  - apply exec_snoc in Hrun as (rs1 & w1 & r & H1 & H2 & _).
    apply (Hstep o w1 r w); eauto.
    destruct (exec_settled ops _ (boot_settled e c0 l0)) as (? & ? & He & Hw).
    rewrite H1 in He. inversion He; subst. assumption.
Qed.

Lemma reachable_settled w : reachable w -> settled w.
Proof.
  apply reachable_ind.
  - apply boot_settled.
  - intros o w0 r w' Hw _ Hs.
    destruct (step_settled o w0 Hw) as (? & ? & Hs' & ?).
    rewrite Hs in Hs'. inversion Hs'; subst. assumption.
Qed.

Lemma exec_app_intro ops1 : forall ops2 w rs1 w1 rs2 w2,
  exec ops1 w = Ok rs1 w1 -> exec ops2 w1 = Ok rs2 w2 ->
  exec (ops1 ++ ops2) w = Ok (rs1 ++ rs2) w2.
Proof.
  induction ops1 as [|o ops1 IH]; intros ops2 w rs1 w1 rs2 w2 H1 H2.
  - cbn in H1. inversion H1; subst. exact H2.
  - apply exec_cons in H1 as (r & w' & rs' & Hs & He & ->).
    cbn. unfold bind at 1. rewrite Hs. unfold bind at 1.
    rewrite (IH _ _ _ _ _ _ He H2). reflexivity.
Qed.

Lemma exec_one o w r w' : step o w = Ok r w' -> exec [o] w = Ok [r] w'.
Proof. intros H. cbn. unfold bind, ret. rewrite H. reflexivity. Qed.

Lemma reachable_step o w r w' :
  reachable w -> step o w = Ok r w' -> reachable w'.
Proof.
  intros (e & c0 & l0 & ops & rs & Hrun) Hs.
  exists e, c0, l0, (ops ++ [o]), (rs ++ [r]).
  eapply exec_app_intro; [exact Hrun | apply exec_one, Hs].
Qed.

Lemma reachable_exec ops w rs w' :
  reachable w -> exec ops w = Ok rs w' -> reachable w'.
Proof.
  intros (e & c0 & l0 & ops0 & rs0 & Hrun) He.
  exists e, c0, l0, (ops0 ++ ops), (rs0 ++ rs).
  eapply exec_app_intro; eassumption.
Qed.

(** *** What one step does to the statistics *)

Lemma deliveries_app tr1 tr2 :
  deliveries (tr1 ++ tr2) = deliveries tr1 ++ deliveries tr2.
Proof.
  induction tr1 as [|[e s] tr1 IH]; [reflexivity|].
  cbn. destruct e as [| | | | | |[msg d|]]; cbn; rewrite ?IH; reflexivity.
Qed.

Lemma step_stats o w r w' :
  settled w -> step o w = Ok r w' ->
  match delivery_of o w with
  | Some (msg, d) =>
      stats_of (peer w') = delivered (stats_of (peer w)) msg d /\
      deliveries (trace w') = deliveries (trace w) ++ [(msg, d)]
  | None =>
      stats_of (peer w') = stats_of (peer w) /\
      deliveries (trace w') = deliveries (trace w)
  end.
Proof.
  intros [Hm Hd] Hs. open_world w. revert Hs.
  destruct o; run_m.
  all: intros Hs; try discriminate.
  all: inversion Hs; subst; clear Hs; cbn.
  all: rewrite ?deliveries_app; cbn; rewrite ?app_nil_r.
  all: try (split; reflexivity).
  all: split; [|reflexivity].
  all: unfold delivered, stats_of; cbn; order_hyps; f_equal; lia.
Qed.

Lemma step_stats_none o w r w' :
  settled w -> step o w = Ok r w' -> delivery_of o w = None ->
  stats_of (peer w') = stats_of (peer w) /\
  deliveries (trace w') = deliveries (trace w).
Proof.
  intros Hw Hs Hn. pose proof (step_stats o w r w' Hw Hs) as H.
  rewrite Hn in H. exact H.
Qed.

Lemma step_stats_some o w r w' msg d :
  settled w -> step o w = Ok r w' -> delivery_of o w = Some (msg, d) ->
  stats_of (peer w') = delivered (stats_of (peer w)) msg d /\
  deliveries (trace w') = deliveries (trace w) ++ [(msg, d)].
Proof.
  intros Hw Hs Hn. pose proof (step_stats o w r w' Hw Hs) as H.
  rewrite Hn in H. exact H.
Qed.

Lemma stats_fields (p p' : IPCPeer C) s :
  stats_of p' = s ->
  msgCount p' = st_msgCount s /\ bytesCount p' = st_bytesCount s /\
  minLatency p' = st_minLatency s /\ maxLatency p' = st_maxLatency s /\
  totalLatency p' = st_totalLatency s.
Proof. intros <-. cbn. auto. Qed.

Lemma stats_same (p p' : IPCPeer C) :
  stats_of p' = stats_of p ->
  msgCount p' = msgCount p /\ bytesCount p' = bytesCount p /\
  minLatency p' = minLatency p /\ maxLatency p' = maxLatency p /\
  totalLatency p' = totalLatency p.
Proof. intros H. apply (stats_fields p) in H. exact H. Qed.

Lemma sumZ_snoc l x : sumZ (l ++ [x]) = sumZ l + x.
Proof.
  unfold sumZ. induction l as [|y l IH]; cbn; [lia|]. rewrite IH. lia.
Qed.

Lemma sumZ_app l1 l2 : sumZ (l1 ++ l2) = sumZ l1 + sumZ l2.
Proof.
  unfold sumZ. induction l1 as [|y l IH]; cbn; [lia|]. rewrite IH. lia.
Qed.

(** *** The statistics of a run, read off its deliveries *)

Lemma run_counters w :
  reachable w ->
  msgCount (peer w) = Int64.wrap (Z.of_nat (List.length (deliveries (trace w)))) /\
  bytesCount (peer w) = Int64.wrap (sumZ (delivered_bytes w)) /\
  totalLatency (peer w) = Int64.wrap (sumZ (recorded_delays w)).
Proof.
  revert w. apply reachable_ind.
  - intros e c0 l0. cbn. auto.
  - intros o w r w' Hw (Hm & Hb & Ht) Hs.
    unfold delivered_bytes, recorded_delays in *.
    destruct (delivery_of o w) as [[msg d]|] eqn:Hd.
    + destruct (step_stats_some _ _ _ _ _ _ Hw Hs Hd) as [Hst Hdl].
      apply (stats_fields (peer w)) in Hst. cbn in Hst.
      destruct Hst as (Hm' & Hb' & _ & _ & Ht').
      rewrite Hm', Hb', Ht', Hdl, !map_app, length_app.
      cbn [map fst snd List.length]. rewrite !sumZ_snoc.
      rewrite Hm, Hb, Ht. unfold Int64.add, len64.
      rewrite !Int64Facts.wrap_wrap_add_l, Int64Facts.wrap_wrap_add_r.
      repeat split; f_equal; lia.
    + destruct (step_stats_none _ _ _ _ Hw Hs Hd) as [Hst Hdl].
      apply stats_same in Hst. destruct Hst as (Hm' & Hb' & _ & _ & Ht').
      rewrite Hm', Hb', Ht', Hdl. auto.
Qed.

Lemma run_extremes w :
  reachable w ->
  Forall (fun d => minLatency (peer w) <= d <= maxLatency (peer w))
         (recorded_delays w) /\
  (deliveries (trace w) = [] ->
   minLatency (peer w) = Int64.MaxInt64 /\ maxLatency (peer w) = 0 /\
   totalLatency (peer w) = 0).
Proof.
  revert w. apply reachable_ind.
  - intros e c0 l0. cbn. split; [constructor | auto].
  - intros o w r w' Hw [Hall Hnone] Hs.
    unfold recorded_delays in *.
    destruct (delivery_of o w) as [[msg d]|] eqn:Hd.
    + destruct (step_stats_some _ _ _ _ _ _ Hw Hs Hd) as [Hst Hdl].
      apply (stats_fields (peer w)) in Hst. cbn in Hst.
      destruct Hst as (_ & _ & Hmin & Hmax & _).
      rewrite Hmin, Hmax, Hdl, map_app. split.
      * apply Forall_app. split.
        -- eapply Forall_impl; [|exact Hall]. cbn. intros; lia.
        -- constructor; [cbn; lia | constructor].
      * intros Habs. apply app_eq_nil in Habs as [_ Habs]. discriminate.
    + destruct (step_stats_none _ _ _ _ Hw Hs Hd) as [Hst Hdl].
      apply stats_same in Hst. destruct Hst as (_ & _ & Hmin & Hmax & Ht).
      rewrite Hmin, Hmax, Ht, Hdl. auto.
Qed.

Lemma reachable_run e (c0 : C) latency0 ops rs w :
  exec ops (boot e c0 latency0) = Ok rs w -> reachable w.
Proof. intros H. exists e, c0, latency0, ops, rs. exact H. Qed.

Lemma GetLatencies_settled (w : World C) :
  settled w ->
  exists w',
    GetLatencies w =
      Ok (minLatency (peer w), maxLatency (peer w), totalLatency (peer w)) w'.
Proof.
  intros [Hm _]. open_world w. run_m. eexists. reflexivity.
Qed.

(** *** Extremes and sentinel *)

Lemma txDelay_settled (w : World C) msg d :
  settled w ->
  exists w',
    txDelay msg d w = Ok tt w' /\ settled w' /\
    stats_of (peer w') = delivered (stats_of (peer w)) msg d.
Proof.
  intros [Hm Hd]. open_world w. run_m.
  all: eexists; split; [reflexivity|]; cbn.
  all: unfold delivered, stats_of, settled; cbn; order_hyps.
  all: rewrite ?Z.min_l, ?Z.min_r, ?Z.max_l, ?Z.max_r by lia.
  all: repeat split; try reflexivity; try tauto.
Qed.

Lemma deliver_all_spec l : forall w : World C,
  settled w ->
  exists w',
    deliver_all l w = Ok tt w' /\ settled w' /\
    minLatency (peer w') <= minLatency (peer w) /\
    maxLatency (peer w) <= maxLatency (peer w') /\
    Forall (fun d => minLatency (peer w') <= d <= maxLatency (peer w')) (map snd l).
Proof.
  induction l as [|[msg d] l IH]; intros w Hw.
  - exists w. cbn. split; [reflexivity|]. split; [exact Hw|].
    split; [lia|]. split; [lia|]. constructor.
  - destruct (txDelay_settled w msg d Hw) as (w1 & Ht & Hw1 & Hst).
    apply (stats_fields (peer w)) in Hst. cbn in Hst.
    destruct Hst as (_ & _ & Hlo & Hhi & _).
    destruct (IH w1 Hw1) as (w' & Hd & Hw' & Hlo' & Hhi' & Hall).
    exists w'. cbn [deliver_all]. unfold bind. rewrite Ht.
    split; [exact Hd|]. split; [exact Hw'|].
    split; [lia|]. split; [lia|].
    cbn [map snd]. constructor; [lia | exact Hall].
Qed.

(** C2. In every world a fresh transport can reach, and so after every
    delivery task that has run, the recorded minimum is at most every
    recorded delay and every recorded delay is at most the recorded
    maximum.  From there the delivery tasks of any further list [l] of
    payloads and delays, the delays being arbitrary integers, negative or
    not, run to the end, and the extremes then enclose the delays recorded
    before as well as those of [l]. *)
Theorem recorded_delays_between_extremes w :
  reachable w ->
  Forall (fun d => minLatency (peer w) <= d <= maxLatency (peer w))
         (recorded_delays w) /\
  forall l,
    exists w',
      deliver_all l w = Ok tt w' /\
      Forall (fun d => minLatency (peer w') <= d <= maxLatency (peer w'))
             (recorded_delays w ++ map snd l).
Proof.
  intros H. pose proof (proj1 (run_extremes w H)) as Hall.
  split; [exact Hall|]. intros l.
  destruct (deliver_all_spec l w (reachable_settled w H))
    as (w' & Hd & _ & Hlo & Hhi & Hl).
  exists w'. split; [exact Hd|]. apply Forall_app. split; [|exact Hl].
  eapply Forall_impl; [|exact Hall]. cbn. intros; lia.
Qed.

(** C9. Before any delivery task has run, [GetLatencies] returns
    (2^63-1, 0, 0), whose minimum is above its maximum; once a delivery
    has been recorded the returned minimum is at most the returned
    maximum. *)
Theorem GetLatencies_sentinel w :
  reachable w ->
  exists lo hi total w',
    GetLatencies w = Ok (lo, hi, total) w' /\
    (deliveries (trace w) = [] ->
     (lo, hi, total) = (2 ^ 63 - 1, 0, 0) /\ hi < lo) /\
    (deliveries (trace w) <> [] -> lo <= hi).
Proof.
  intros Hr. pose proof (reachable_settled w Hr) as Hw.
  destruct (GetLatencies_settled w Hw) as [w' Hg].
  destruct (run_extremes w Hr) as [Hall Hnone].
  exists (minLatency (peer w)), (maxLatency (peer w)), (totalLatency (peer w)), w'.
  split; [exact Hg|]. split.
  - intros Hd. destruct (Hnone Hd) as (-> & -> & ->).
    split; [reflexivity | reflexivity].
  - intros Hd. unfold recorded_delays in Hall.
    destruct (deliveries (trace w)) as [|[m d] l]; [contradiction|].
    cbn in Hall. inversion Hall; subst. cbn in *. lia.
Qed.

(** *** One delivery *)

Lemma fire_delivery (w : World C) i msg d t :
  settled w -> nth_error (sched w) i = Some (TxDelay msg d, t) ->
  exists w',
    fire i w = Ok tt w' /\
    settled w' /\
    stats_of (peer w') = delivered (stats_of (peer w)) msg d /\
    c (peer w') =
      fst (Consensus.ReceiveMessage (c (peer w)) msg (env_now (env w) (clock_reads w))) /\
    sched w' = remove_nth i (sched w) /\
    trace w' = trace w ++
      [ {| ev := EvFire (TxDelay msg d); seen := stats_of (peer w) |};
        {| ev := EvLock; seen := stats_of (peer w) |};
        {| ev := EvReceiveMessage msg (env_now (env w) (clock_reads w));
           seen := delivered (stats_of (peer w)) msg d |};
        {| ev := EvUnlock; seen := delivered (stats_of (peer w)) msg d |} ].
Proof.
  intros [Hm Hd] Hn. open_world w. unfold fire. cbn. rewrite Hn.
  run_m.
  all: eexists; split; [reflexivity|]; cbn.
  all: rewrite <- ?app_assoc; cbn.
  all: unfold delivered, stats_of, settled; cbn; order_hyps.
  all: rewrite ?Z.min_l, ?Z.min_r, ?Z.max_l, ?Z.max_r by lia.
  all: repeat split; try reflexivity; try tauto.
Qed.

Lemma step_fire i (w : World C) :
  step (OpFire i) w =
    match fire i w with
    | Ok _ w' => Ok RUnit w'
    | Panic s w' => Panic s w'
    | Blocked => Blocked
    end.
Proof. reflexivity. Qed.

(** C1, as the code has it.  In a world a fresh transport can reach, the
    scheduler running a pending delivery task completes; it adds 1 to the
    message counter, [len(msg)] to the byte counter and the sampled delay
    to the cumulative delay, each as an [int64] addition, that is modulo
    2^64, and exactly so whenever the result fits an [int64]; the
    cumulative delay is the sum of all recorded delays modulo 2^64; the
    trace shows the update between the acquisition and the release of the
    lock; and a delivery task that finds the lock held waits, touching
    nothing. *)
Theorem delivery_updates_statistics w i msg d t :
  reachable w -> nth_error (sched w) i = Some (TxDelay msg d, t) ->
  exists w',
    fire i w = Ok tt w' /\
    msgCount (peer w') = Int64.wrap (msgCount (peer w) + 1) /\
    bytesCount (peer w') = Int64.wrap (bytesCount (peer w) + Z.of_nat (List.length msg)) /\
    totalLatency (peer w') = Int64.wrap (totalLatency (peer w) + d) /\
    totalLatency (peer w') = Int64.wrap (sumZ (recorded_delays w')) /\
    (Int64.in_range (msgCount (peer w) + 1) ->
     msgCount (peer w') = msgCount (peer w) + 1) /\
    (Int64.in_range (bytesCount (peer w) + Z.of_nat (List.length msg)) ->
     bytesCount (peer w') = bytesCount (peer w) + Z.of_nat (List.length msg)) /\
    (Int64.in_range (totalLatency (peer w) + d) ->
     totalLatency (peer w') = totalLatency (peer w) + d) /\
    (Int64.in_range (sumZ (recorded_delays w')) ->
     totalLatency (peer w') = sumZ (recorded_delays w')) /\
    exists now,
      trace w' = trace w ++
        [ {| ev := EvFire (TxDelay msg d); seen := stats_of (peer w) |};
          {| ev := EvLock; seen := stats_of (peer w) |};
          {| ev := EvReceiveMessage msg now; seen := stats_of (peer w') |};
          {| ev := EvUnlock; seen := stats_of (peer w') |} ] /\
      forall w0 : World C, Mutex (peer w0) = true -> txDelay msg d w0 = Blocked.
Proof.
  intros Hr Hn. pose proof (reachable_settled w Hr) as Hw.
  destruct (fire_delivery w i msg d t Hw Hn) as (w' & Hf & Hw' & Hst & _ & _ & Htr).
  assert (Hr' : reachable w').
  { apply (reachable_step (OpFire i) w RUnit w' Hr). rewrite step_fire, Hf. reflexivity. }
  destruct (run_counters w' Hr') as (_ & _ & Htot).
  pose proof Hst as Hfields. apply (stats_fields (peer w)) in Hfields. cbn in Hfields.
  destruct Hfields as (Hm & Hb & _ & _ & Ht).
  assert (Hb' : bytesCount (peer w') =
                Int64.wrap (bytesCount (peer w) + Z.of_nat (List.length msg))).
  { rewrite Hb. unfold Int64.add, len64. apply Int64Facts.wrap_wrap_add_r. }
  exists w'. split; [exact Hf|].
  split; [exact Hm|]. split; [exact Hb'|]. split; [exact Ht|]. split; [exact Htot|].
  split; [intros Hin; rewrite Hm; apply Int64Facts.wrap_small, Hin|].
  split; [intros Hin; rewrite Hb'; apply Int64Facts.wrap_small, Hin|].
  split; [intros Hin; rewrite Ht; apply Int64Facts.wrap_small, Hin|].
  split; [intros Hin; rewrite Htot; apply Int64Facts.wrap_small, Hin|].
  exists (env_now (env w) (clock_reads w)). split.
  - rewrite Htr, Hst. reflexivity.
  - intros w0 Hheld. unfold txDelay, bind, Lock. rewrite Hheld. reflexivity.
Qed.

(** C10. The delivery task has updated the message counter, the byte
    counter and the delay statistics when it calls the engine: the trace
    entry of the call to [ReceiveMessage] already shows the statistics the
    delivery leaves behind.  The update is the same whatever the engine
    answers ([err] is its answer and is arbitrary), so a message the engine
    rejects is counted exactly as one it accepts. *)
Theorem rejected_message_is_counted w i msg d t c' err :
  reachable w -> nth_error (sched w) i = Some (TxDelay msg d, t) ->
  Consensus.ReceiveMessage (c (peer w)) msg (env_now (env w) (clock_reads w)) = (c', err) ->
  exists w',
    fire i w = Ok tt w' /\
    c (peer w') = c' /\
    msgCount (peer w') = Int64.add (msgCount (peer w)) 1 /\
    bytesCount (peer w') = Int64.add (bytesCount (peer w)) (len64 msg) /\
    minLatency (peer w') = Z.min (minLatency (peer w)) d /\
    maxLatency (peer w') = Z.max (maxLatency (peer w)) d /\
    totalLatency (peer w') = Int64.add (totalLatency (peer w)) d /\
    trace w' = trace w ++
      [ {| ev := EvFire (TxDelay msg d); seen := stats_of (peer w) |};
        {| ev := EvLock; seen := stats_of (peer w) |};
        {| ev := EvReceiveMessage msg (env_now (env w) (clock_reads w));
           seen := stats_of (peer w') |};
        {| ev := EvUnlock; seen := stats_of (peer w') |} ].
Proof.
  intros Hr Hn He. pose proof (reachable_settled w Hr) as Hw.
  destruct (fire_delivery w i msg d t Hw Hn) as (w' & Hf & _ & Hst & Hc & _ & Htr).
  pose proof Hst as Hfields. apply (stats_fields (peer w)) in Hfields. cbn in Hfields.
  destruct Hfields as (Hm & Hb & Hlo & Hhi & Ht).
  exists w'. rewrite Hc, He, Htr, Hst. cbn. repeat split; assumption.
Qed.

(** *** [Send] *)

Lemma Send_run (w : World C) msg :
  exists w',
    Send msg w = Ok None w' /\
    peer w' = peer w /\
    sched w' = sched w ++
      [ (TxDelay msg (delay_of (env_conv (env w)) (latency (peer w))
                               (env_norm (env w) (rand_reads w))),
         time_Add (env_now (env w) (clock_reads w))
                  (delay_of (env_conv (env w)) (latency (peer w))
                            (env_norm (env w) (rand_reads w)))) ].
Proof.
  destruct w as [p q e cr rr tr]. unfold_m. cbn. eexists. split; [reflexivity|].
  cbn. split; reflexivity.
Qed.

(** C6. In every world, whatever the payload and the sample, [Send]
    returns [nil]; what it leaves behind is one more pending delivery task
    for that payload, with the sampled delay and the fire time "now plus
    the delay", and an untouched transport. *)
Theorem Send_never_fails (w : World C) msg :
  exists w',
    Send msg w = Ok None w' /\
    peer w' = peer w /\
    sched w' = sched w ++
      [ (TxDelay msg (delay_of (env_conv (env w)) (latency (peer w))
                               (env_norm (env w) (rand_reads w))),
         time_Add (env_now (env w) (clock_reads w))
                  (delay_of (env_conv (env w)) (latency (peer w))
                            (env_norm (env w) (rand_reads w)))) ].
Proof. exact (Send_run w msg). Qed.

(** *** [Update] and [Close] *)

Lemma step_die o (w : World C) r w' :
  settled w -> step o w = Ok r w' ->
  dieOnce (peer w') = dieOnce (peer w) || is_OpClose o /\
  count is_close_die (trace w') =
    (count is_close_die (trace w) +
     (if negb (dieOnce (peer w)) && is_OpClose o then 1 else 0))%nat.
Proof.
  intros [Hm Hd] Hs. open_world w. revert Hs.
  destruct o; run_m.
  all: intros Hs; try discriminate.
  all: inversion Hs; subst; clear Hs; cbn.
  all: unfold count; rewrite ?filter_app, ?length_app; cbn.
  all: rewrite ?orb_false_r, ?orb_true_r, ?andb_false_r, ?andb_true_r; cbn.
  all: split; try reflexivity; try lia.
  all: exfalso; destruct Hd as [H1 H2]; specialize (H2 eq_refl); discriminate.
Qed.

Lemma exec_die ops : forall (w : World C) rs w',
  settled w -> exec ops w = Ok rs w' ->
  dieOnce (peer w') = dieOnce (peer w) || existsb is_OpClose ops /\
  count is_close_die (trace w') =
    (count is_close_die (trace w) +
     (if negb (dieOnce (peer w)) && existsb is_OpClose ops then 1 else 0))%nat.
Proof.
  induction ops as [|o ops IH]; intros w rs w' Hw He.
  - cbn in He. inversion He; subst. cbn.
    rewrite orb_false_r, andb_false_r. split; [reflexivity | lia].
  - apply exec_cons in He as (r & w1 & rs' & Hs & He & ->).
    destruct (step_settled o w Hw) as (r1 & w1' & Hs' & Hw1).
    rewrite Hs in Hs'. inversion Hs'; subst r1 w1'. clear Hs'.
    destruct (step_die o w r w1 Hw Hs) as [H1 H2].
    destruct (IH w1 rs' w' Hw1 He) as [H3 H4].
    rewrite H3, H4, H2, H1. cbn [existsb].
    destruct (dieOnce (peer w)), (is_OpClose o), (existsb is_OpClose ops); cbn;
      split; try reflexivity; lia.
Qed.

Lemma Close_done (w : World C) : dieOnce (peer w) = true -> Close w = Ok tt w.
Proof. intros H. unfold_m. rewrite H. reflexivity. Qed.

(** C5. Whatever a fresh transport is put through, and however many calls
    of [Close] are among it and wherever they fall between the other
    operations, the run completes without a panic, [close(p.die)] has
    been executed exactly once if there was a call of [Close] and never
    otherwise, the channel is closed exactly in the first case, and from
    then on a call of [Close] returns leaving the world as it found it. *)
Theorem Close_idempotent e (c0 : C) latency0 ops :
  exists rs w,
    exec ops (boot e c0 latency0) = Ok rs w /\
    count is_close_die (trace w) = (if existsb is_OpClose ops then 1 else 0)%nat /\
    die (peer w) = (if existsb is_OpClose ops then ChanClosed else ChanOpen) /\
    (existsb is_OpClose ops = true -> Close w = Ok tt w).
Proof.
  destruct (exec_settled ops _ (boot_settled e c0 latency0)) as (rs & w & He & Hw).
  destruct (exec_die ops _ rs w (boot_settled e c0 latency0) He) as [H1 H2].
  cbn in H1, H2. exists rs, w. split; [exact He|]. split; [exact H2|].
  destruct Hw as [_ Hd]. split.
  - destruct (existsb is_OpClose ops).
    + apply Hd, H1.
    + destruct (die (peer w)); [reflexivity|].
      destruct Hd as [_ Hd]. rewrite Hd in H1 by reflexivity. discriminate.
  - intros Hc. apply Close_done. rewrite H1, Hc. reflexivity.
Qed.

Lemma step_closed o (w : World C) r w' :
  settled w -> step o w = Ok r w' ->
  (die (peer w) = ChanClosed -> die (peer w') = ChanClosed) /\
  (die (peer w') <> die (peer w) -> o = OpClose).
Proof.
  intros [Hm Hd] Hs. open_world w. revert Hs.
  destruct o; run_m.
  all: intros Hs; try discriminate.
  all: inversion Hs; subst; clear Hs; cbn.
  all: split; intros; try reflexivity; try congruence.
Qed.

Lemma exec_closed ops : forall (w : World C) rs w',
  settled w -> exec ops w = Ok rs w' ->
  die (peer w) = ChanClosed -> die (peer w') = ChanClosed.
Proof.
  induction ops as [|o ops IH]; intros w rs w' Hw He Hc.
  - cbn in He. inversion He; subst. exact Hc.
  - apply exec_cons in He as (r & w1 & rs' & Hs & He & ->).
    destruct (step_settled o w Hw) as (r1 & w1' & Hs' & Hw1).
    rewrite Hs in Hs'. inversion Hs'; subst r1 w1'. clear Hs'.
    apply (IH w1 rs' w' Hw1 He).
    apply (step_closed o w r w1 Hw Hs). exact Hc.
Qed.

Lemma Update_settled (w : World C) :
  settled w ->
  exists w',
    Update w = Ok tt w' /\
    die (peer w') = die (peer w) /\
    match die (peer w) with
    | ChanOpen =>
        count is_engine_update (trace w') = S (count is_engine_update (trace w)) /\
        count is_put (trace w') = S (count is_put (trace w)) /\
        c (peer w') =
          fst (Consensus.Update (c (peer w)) (env_now (env w) (clock_reads w))) /\
        sched w' = sched w ++
          [(UpdateTask,
            time_Add (env_now (env w) (S (clock_reads w))) (20 * Millisecond))]
    | ChanClosed =>
        count is_engine_update (trace w') = count is_engine_update (trace w) /\
        count is_put (trace w') = count is_put (trace w) /\
        c (peer w') = c (peer w) /\
        sched w' = sched w
    end.
Proof.
  intros [Hm Hd]. open_world w. run_m.
  all: eexists; split; [reflexivity|]; cbn.
  all: unfold count; rewrite ?filter_app, ?length_app; cbn.
  all: repeat split; try reflexivity; try lia.
Qed.

(** C3. In a world a fresh transport can reach, one call of [Update]
    returns.  With the termination channel open it has called the engine's
    [Update] exactly once and has submitted exactly one callback, [Update]
    itself, which joins the pending ones with the fire time "the clock
    reading taken for the submission, plus 20 milliseconds"; with the
    channel closed it has called the engine no time, submitted nothing and
    left engine and pending callbacks as they were.  [Update] never
    changes the channel, a closed channel stays closed through every run,
    and only [Close] changes it. *)
Theorem Update_two_states w :
  reachable w ->
  exists w',
    Update w = Ok tt w' /\
    die (peer w') = die (peer w) /\
    match die (peer w) with
    | ChanOpen =>
        count is_engine_update (trace w') = S (count is_engine_update (trace w)) /\
        count is_put (trace w') = S (count is_put (trace w)) /\
        c (peer w') =
          fst (Consensus.Update (c (peer w)) (env_now (env w) (clock_reads w))) /\
        sched w' = sched w ++
          [(UpdateTask,
            time_Add (env_now (env w) (S (clock_reads w))) (20 * Millisecond))]
    | ChanClosed =>
        count is_engine_update (trace w') = count is_engine_update (trace w) /\
        count is_put (trace w') = count is_put (trace w) /\
        c (peer w') = c (peer w) /\
        sched w' = sched w
    end /\
    (forall ops rs w2,
       die (peer w) = ChanClosed -> exec ops w = Ok rs w2 ->
       die (peer w2) = ChanClosed) /\
    (forall o r w2,
       step o w = Ok r w2 -> die (peer w2) <> die (peer w) -> o = OpClose).
Proof.
  intros Hr. pose proof (reachable_settled w Hr) as Hw.
  destruct (Update_settled w Hw) as (w' & Hu & Hd & Hcase).
  exists w'. split; [exact Hu|]. split; [exact Hd|]. split; [exact Hcase|]. split.
  - intros ops rs w2 Hc He. exact (exec_closed ops w rs w2 Hw He Hc).
  - intros o r w2 Hs Hne. exact (proj2 (step_closed o w r w2 Hw Hs) Hne).
Qed.

(** *** The counters along a run *)

Lemma exec_deliveries ops : forall (w : World C) rs w',
  settled w -> exec ops w = Ok rs w' ->
  exists more, deliveries (trace w') = deliveries (trace w) ++ more.
Proof.
  induction ops as [|o ops IH]; intros w rs w' Hw He.
  - cbn in He. inversion He; subst. exists []. rewrite app_nil_r. reflexivity.
  - apply exec_cons in He as (r & w1 & rs' & Hs & He & ->).
    destruct (step_settled o w Hw) as (r1 & w1' & Hs' & Hw1).
    rewrite Hs in Hs'. inversion Hs'; subst r1 w1'. clear Hs'.
    destruct (IH w1 rs' w' Hw1 He) as [more Hmore].
    pose proof (step_stats o w r w1 Hw Hs) as Hst.
    destruct (delivery_of o w) as [[msg d]|].
    + destruct Hst as [_ Hd]. exists ((msg, d) :: more).
      rewrite Hmore, Hd, <- app_assoc. reflexivity.
    + destruct Hst as [_ Hd]. exists more. rewrite Hmore, Hd. reflexivity.
Qed.

Lemma sum_lengths_nonneg (l : list (list byte * Duration)) :
  0 <= sumZ (map (fun md => Z.of_nat (List.length (fst md))) l).
Proof. unfold sumZ. induction l as [|x l IH]; cbn; lia. Qed.

(** C8, as the code has it.  From a world a fresh transport can reach:
    along every run in which the number of messages delivered so far and
    the number of bytes delivered so far still fit an [int64], neither
    counter ends below where it started; and a single operation either
    leaves both counters as they are or is a delivery, which adds 1 and
    [len(msg)] modulo 2^64: there is no operation that resets them. *)
Theorem counters_never_decrease_within_int64 w :
  reachable w ->
  (forall ops rs w',
     exec ops w = Ok rs w' ->
     Z.of_nat (List.length (deliveries (trace w'))) <= Int64.MaxInt64 ->
     sumZ (delivered_bytes w') <= Int64.MaxInt64 ->
     msgCount (peer w) <= msgCount (peer w') /\
     bytesCount (peer w) <= bytesCount (peer w')) /\
  (forall o r w1,
     step o w = Ok r w1 ->
     match delivery_of o w with
     | None =>
         msgCount (peer w1) = msgCount (peer w) /\
         bytesCount (peer w1) = bytesCount (peer w)
     | Some (msg, _) =>
         msgCount (peer w1) = Int64.wrap (msgCount (peer w) + 1) /\
         bytesCount (peer w1) =
           Int64.wrap (bytesCount (peer w) + Z.of_nat (List.length msg))
     end).
Proof.
  intros Hr. pose proof (reachable_settled w Hr) as Hw. split.
  - intros ops rs w' He Hn Hb.
    pose proof (reachable_exec ops w rs w' Hr He) as Hr'.
    destruct (run_counters w Hr) as (Hm & Hby & _).
    destruct (run_counters w' Hr') as (Hm' & Hby' & _).
    destruct (exec_deliveries ops w rs w' Hw He) as [more Hmore].
    unfold delivered_bytes in *. rewrite Hmore in *.
    rewrite map_app, sumZ_app in *. rewrite length_app in *.
    pose proof (sum_lengths_nonneg (deliveries (trace w))).
    pose proof (sum_lengths_nonneg more).
    unfold Int64.MaxInt64 in *.
    rewrite Hm, Hby, Hm', Hby'.
    rewrite !Int64Facts.wrap_small
      by (unfold Int64.in_range, Int64.MinInt64, Int64.MaxInt64; lia).
    lia.
  - intros o r w1 Hs. pose proof (step_stats o w r w1 Hw Hs) as Hst.
    destruct (delivery_of o w) as [[msg d]|].
    + destruct Hst as [Hst _]. apply (stats_fields (peer w)) in Hst. cbn in Hst.
      destruct Hst as (Hm & Hb & _). split; [exact Hm|].
      rewrite Hb. unfold Int64.add, len64. apply Int64Facts.wrap_wrap_add_r.
    + destruct Hst as [Hst _]. apply stats_same in Hst.
      destruct Hst as (Hm & Hb & _). auto.
Qed.

(** *** Rounds of traffic *)

Lemma round_spec (w : World C) msg :
  settled w -> sched w = [] ->
  exists rs w',
    exec (round msg) w = Ok rs w' /\ settled w' /\ sched w' = [] /\
    bytesCount (peer w') =
      Int64.wrap (bytesCount (peer w) + Z.of_nat (List.length msg)).
Proof.
  intros Hw Hq.
  destruct (Send_run w msg) as (w1 & Hs & Hp & Hq1).
  rewrite Hq in Hq1. cbn in Hq1.
  assert (Hw1 : settled w1) by (unfold settled; rewrite Hp; exact Hw).
  edestruct (fire_delivery w1 0) as (w2 & Hf & Hw2 & Hst & _ & Hq2 & _);
    [exact Hw1 | rewrite Hq1; reflexivity |].
  exists [RError None; RUnit], w2.
  split; [|split; [exact Hw2|split]].
  - unfold round. cbn [exec step]. unfold bind, ret. rewrite Hs, Hf. reflexivity.
  - rewrite Hq2, Hq1. reflexivity.
  - apply (stats_fields (peer w1)) in Hst. cbn in Hst.
    destruct Hst as (_ & Hb & _). rewrite Hb, Hp.
    unfold Int64.add, len64. apply Int64Facts.wrap_wrap_add_r.
Qed.

Lemma rounds_spec n msg : forall (w : World C),
  settled w -> sched w = [] -> Int64.in_range (bytesCount (peer w)) ->
  exists rs w',
    exec (rounds n msg) w = Ok rs w' /\ settled w' /\ sched w' = [] /\
    bytesCount (peer w') =
      Int64.wrap (bytesCount (peer w) + Z.of_nat n * Z.of_nat (List.length msg)).
Proof.
  induction n as [|n IH]; intros w Hw Hq Hin.
  - exists [], w. split; [reflexivity|]. split; [exact Hw|]. split; [exact Hq|].
    rewrite Int64Facts.wrap_small; [lia|].
    replace (bytesCount (peer w) + Z.of_nat 0 * Z.of_nat (List.length msg))
      with (bytesCount (peer w)) by lia.
    exact Hin.
  - destruct (round_spec w msg Hw Hq) as (rs1 & w1 & He1 & Hw1 & Hq1 & Hb1).
    assert (Hin1 : Int64.in_range (bytesCount (peer w1)))
      by (rewrite Hb1; apply Int64Facts.wrap_in_range).
    destruct (IH w1 Hw1 Hq1 Hin1) as (rs2 & w2 & He2 & Hw2 & Hq2 & Hb2).
    exists (rs1 ++ rs2), w2.
    split; [exact (exec_app_intro _ _ _ _ _ _ _ He1 He2)|].
    split; [exact Hw2|]. split; [exact Hq2|].
    rewrite Hb2, Hb1, Int64Facts.wrap_wrap_add_l. f_equal. lia.
Qed.

End TransportFacts.

(** ** The delay generator *)

Section Delay.

Import Float64.

Variable conv : float64 -> Z.

Lemma delay_of_unclamped m z j :
  trunc (mul (mul c0_1 z) (of_int m)) = Some j -> Int64.in_range j ->
  delay_of conv m z = Int64.wrap (j + m).
Proof.
  intros Ht [Hlo Hhi]. unfold delay_of, to_int64. rewrite Ht.
  replace ((Int64.MinInt64 <=? j) && (j <=? Int64.MaxInt64)) with true; [reflexivity|].
  symmetry. apply andb_true_intro. split; apply Z.leb_le; assumption.
Qed.

Lemma delay_of_minus_twenty m :
  0 < m < 2 ^ 53 -> delay_of conv m (of_int (-20)) = - m.
Proof.
  intros Hm. destruct m as [|p|p]; try lia.
  destruct (Float64Facts.of_int_small p) as (mz & ez & Hof & Hd & He & Hv); [lia|].
  pose proof (Float64Facts.trunc_minus_two p mz ez He Hv) as Ht.
  replace (ez + 1) with (ez + -51 + 52) in Ht by lia.
  rewrite <- (Float64Facts.mul_minus_pow2 (-51) mz ez Hd ltac:(lia)), <- Hof,
    <- Float64Facts.tenth_of_minus_twenty in Ht.
  rewrite (delay_of_unclamped (Z.pos p) _ _ Ht).
  - replace (- (2 * Z.pos p) + Z.pos p) with (- Z.pos p) by lia.
    apply Int64Facts.wrap_small.
    unfold Int64.in_range, Int64.MinInt64, Int64.MaxInt64. lia.
  - unfold Int64.in_range, Int64.MinInt64, Int64.MaxInt64. lia.
Qed.

Lemma delay_of_negative_product m z mz ez :
  mul (mul c0_1 z) (of_int m) = S754_finite true mz ez ->
  0 <= ez -> Z.pos mz * 2 ^ ez <= 2 ^ 63 ->
  delay_of conv m z = Int64.wrap (m - Z.pos mz * 2 ^ ez).
Proof.
  intros Hp He Hv.
  assert (0 < 2 ^ ez) by (apply Z.pow_pos_nonneg; lia).
  rewrite (delay_of_unclamped m z (- (Z.pos mz * 2 ^ ez))).
  - f_equal. lia.
  - rewrite Hp. apply Float64Facts.trunc_negative, He.
  - unfold Int64.in_range, Int64.MinInt64, Int64.MaxInt64. nia.
Qed.

(** Means of 54 to 62 bits: the sample -20 gives minus twice the rounded
    mean, plus the mean. *)
Lemma delay_of_minus_twenty_mid m :
  2 ^ 53 <= m < 2 ^ 62 -> delay_of conv m (of_int (-20)) < 0.
Proof.
  intros Hm. destruct m as [|p|p]; try lia.
  destruct (Float64Facts.of_int_big p)
    as (mz & ez & Hof & Hd & Hn & _ & _ & Hcase & Hval); [lia|].
  pose proof (Float64Facts.digits_bounds p) as [Dlo Dhi].
  set (d := Z.pos (digits2_pos p)) in *.
  replace (52 + (d - 53)) with (d - 1) in Hval by lia.
  replace (53 + (d - 53)) with d in Hval by lia.
  assert (Hd62 : 2 ^ d <= 2 ^ 62).
  { apply Z.pow_le_mono_r; [lia|].
    destruct (Z_le_gt_dec d 62) as [|Hgt]; [assumption|exfalso].
    assert (2 ^ 62 <= 2 ^ (d - 1)) by (apply Z.pow_le_mono_r; lia). lia. }
  assert (Hdd : 2 ^ d = 2 * 2 ^ (d - 1)).
  { rewrite <- Z.pow_succ_r by lia. f_equal. lia. }
  assert (Hez : 0 <= ez) by (destruct Hcase as [[-> _]|[[-> _]|(-> & _)]]; lia).
  assert (Hprod : mul (mul c0_1 (of_int (-20))) (of_int (Z.pos p)) =
                  S754_finite true mz (ez + -51 + 52)).
  { rewrite Float64Facts.tenth_of_minus_twenty, Hof.
    apply Float64Facts.mul_minus_pow2; [exact Hd | lia]. }
  replace (ez + -51 + 52) with (ez + 1) in Hprod by lia.
  assert (Htwice : Z.pos mz * 2 ^ (ez + 1) = 2 * (Z.pos mz * 2 ^ ez)).
  { rewrite Z.pow_add_r, Z.pow_1_r by lia. lia. }
  rewrite (delay_of_negative_product _ _ _ _ Hprod) by lia.
  rewrite Int64Facts.wrap_small;
    unfold Int64.in_range, Int64.MinInt64, Int64.MaxInt64; lia.
Qed.

(** Means of 63 bits: when [float64] rounds the mean up, the sample -10
    gives the mean minus the rounded mean; when it does not, the sample
    next below -10 gives the mean minus a float above it. *)
Lemma delay_of_top m :
  2 ^ 62 <= m <= Int64.MaxInt64 ->
  delay_of conv m (of_int (-10)) < 0 \/ delay_of conv m below_minus_ten < 0.
Proof.
  unfold Int64.MaxInt64. intros Hm. destruct m as [|p|p]; try lia.
  destruct (Float64Facts.of_int_big p)
    as (mz & ez & Hof & Hd & Hn & Hq & Hqp & Hcase & _); [lia|].
  rewrite (Float64Facts.digits_unique p 63) in * by (change (63 - 1) with 62; lia).
  change (63 - 53) with 10 in *.
  set (q := Z.pos p / 2 ^ 10) in *. change (2 ^ 10) with 1024 in Hqp.
  assert (Hup : Z.pos p < Z.pos mz * 2 ^ ez <= 2 ^ 63 -> 0 <= ez <= 11 ->
                delay_of conv (Z.pos p) (of_int (-10)) < 0).
  { intros Hv He.
    assert (Hprod : mul (mul c0_1 (of_int (-10))) (of_int (Z.pos p)) =
                    S754_finite true mz (ez + -52 + 52)).
    { rewrite Float64Facts.tenth_of_minus_ten, Hof.
      apply Float64Facts.mul_minus_pow2; [exact Hd | lia]. }
    replace (ez + -52 + 52) with ez in Hprod by lia.
    rewrite (delay_of_negative_product _ _ _ _ Hprod) by lia.
    rewrite Int64Facts.wrap_small;
      unfold Int64.in_range, Int64.MinInt64, Int64.MaxInt64; lia. }
  destruct Hcase as [[-> Hmz]|[[-> Hmz]|(-> & Hmz & Hc)]].
  - (* rounded down: the mean is at least its float *)
    right. destruct (Z.eq_dec (Z.pos mz) (2 ^ 53 - 1)) as [Htop|Htop].
    + assert (mz = 9007199254740991%positive) by (apply Pos2Z.inj; exact Htop).
      subst mz.
      assert (Hprod : mul (mul c0_1 below_minus_ten) (of_int (Z.pos p)) =
                      S754_finite true 4503599627370496 11).
      { rewrite Float64Facts.tenth_below_minus_ten, Hof.
        apply Float64Facts.mul_next_above_one_top. }
      rewrite (delay_of_negative_product _ _ _ _ Hprod) by (cbn; lia).
      change (Z.pos 4503599627370496 * 2 ^ 11) with (2 ^ 63).
      rewrite Int64Facts.wrap_small;
        unfold Int64.in_range, Int64.MinInt64, Int64.MaxInt64; lia.
    + destruct (Float64Facts.mul_next_above_one mz 10) as (mz' & ez' & Hm' & He' & Hv');
        [lia | lia |].
      assert (Hprod : mul (mul c0_1 below_minus_ten) (of_int (Z.pos p)) =
                      S754_finite true mz' ez').
      { rewrite Float64Facts.tenth_below_minus_ten, Hof. exact Hm'. }
      change (2 ^ 10) with 1024 in Hv'.
      rewrite (delay_of_negative_product _ _ _ _ Hprod) by lia.
      rewrite Int64Facts.wrap_small;
        unfold Int64.in_range, Int64.MinInt64, Int64.MaxInt64; lia.
  - left. apply Hup; [|lia]. change (2 ^ 10) with 1024. lia.
  - left. apply Hup; [|lia]. rewrite Hmz. change (2 ^ 52 * 2 ^ (10 + 1)) with (2 ^ 63). lia.
Qed.

(** For every positive mean one of three samples gives a negative delay. *)
Lemma negative_delay_exists m :
  0 < m <= Int64.MaxInt64 ->
  exists z,
    In z [of_int (-20); of_int (-10); below_minus_ten] /\ delay_of conv m z < 0.
Proof.
  intros Hm.
  destruct (Z_lt_le_dec m (2 ^ 53)) as [Hs|Hs].
  - exists (of_int (-20)). split; [left; reflexivity|].
    rewrite delay_of_minus_twenty by lia. lia.
  - destruct (Z_lt_le_dec m (2 ^ 62)) as [Hmid|Htop].
    + exists (of_int (-20)). split; [left; reflexivity|].
      apply delay_of_minus_twenty_mid. lia.
    + destruct (delay_of_top m ltac:(lia)) as [H|H].
      * exists (of_int (-10)). split; [right; left; reflexivity | exact H].
      * exists below_minus_ten. split; [right; right; left; reflexivity | exact H].
Qed.

Lemma delay_of_zero_latency z :
  representable (mul (mul c0_1 z) (of_int 0)) = true -> delay_of conv 0 z = 0.
Proof.
  unfold delay_of, representable, to_int64.
  change (of_int 0) with (S754_zero false).
  destruct (mul c0_1 z) as [s|s| |s m e]; cbn; intros H; try discriminate;
    reflexivity.
Qed.

(** C4, as the code has it.  The delay is
    [int64(0.1 * Z * float64(m)) + m]: the product is a binary64 product
    rounded toward zero to an [int64], the sum is an [int64] addition, and
    nothing clamps it, so that a sum below zero is returned as it is.  For
    every mean 0 < m there is a sample that returns a negative delay, one
    of -20, -10 and the float next below -10; for every mean 0 < m < 2^53
    ns the sample -20 returns exactly -m.  For the mean 0 every sample
    whose conversion the language defines returns 0. *)
Theorem delay_is_not_clamped :
  (forall m z j,
     trunc (mul (mul c0_1 z) (of_int m)) = Some j -> Int64.in_range j ->
     delay_of conv m z = Int64.wrap (j + m) /\
     (Int64.MinInt64 <= j + m < 0 -> delay_of conv m z = j + m)) /\
  (forall m, 0 < m <= Int64.MaxInt64 ->
     exists z,
       In z [of_int (-20); of_int (-10); below_minus_ten] /\
       delay_of conv m z < 0) /\
  (forall m, 0 < m < 2 ^ 53 -> delay_of conv m (of_int (-20)) = - m) /\
  (forall z,
     representable (mul (mul c0_1 z) (of_int 0)) = true -> delay_of conv 0 z = 0).
Proof.
  split; [|split; [|split]].
  - intros m z j Ht Hj. rewrite (delay_of_unclamped m z j Ht Hj).
    split; [reflexivity|]. intros Hneg. apply Int64Facts.wrap_small.
    unfold Int64.in_range, Int64.MaxInt64 in *. lia.
  - exact negative_delay_exists.
  - exact delay_of_minus_twenty.
  - exact delay_of_zero_latency.
Qed.

End Delay.

(** ** The engine's errors *)

Lemma step_silenced {C} (E : Consensus.Engine C) o (w : World C) :
  @step C E o w = @step C (Consensus.silenced E) o w.
Proof.
  destruct w as [p q e cr rr tr]. destruct p.
  destruct o; run_m; reflexivity.
Qed.

(** C7. Replace every error the engine reports by [nil]: no run can tell
    the difference.  The return values of all calls, the transport, the
    engine's state, the pending callbacks and the trace are the same with
    the engine as it is and with the silenced engine, so no error of
    [ReceiveMessage] or of the engine's [Update] reaches a caller or
    changes what the transport does.  In particular [Send] returns [nil]
    and [Update] returns nothing. *)
Theorem engine_errors_are_discarded {C} (E : Consensus.Engine C) ops (w : World C) :
  @exec C E ops w = @exec C (Consensus.silenced E) ops w /\
  (forall msg r w', @step C E (OpSend msg) w = Ok r w' -> r = RError None) /\
  (forall r w', @step C E OpUpdate w = Ok r w' -> r = RUnit) /\
  (forall i r w', @step C E (OpFire i) w = Ok r w' -> r = RUnit).
Proof.
  split.
  - revert w. induction ops as [|o ops IH]; intros w; [reflexivity|].
    cbn. unfold bind at 1 3. rewrite <- step_silenced.
    destruct (@step C E o w) as [r w1| |]; [|reflexivity|reflexivity].
    unfold bind. rewrite IH. reflexivity.
  - split; [|split].
    + intros msg r w' H. destruct (Send_run w msg) as (w1 & Hs & _).
      unfold step, bind in H. rewrite Hs in H. inversion H. reflexivity.
    + intros r w' H. unfold step, bind in H.
      destruct (Update w) as [[] w1| |]; inversion H. reflexivity.
    + intros i r w' H. unfold step, bind in H.
      destruct (fire i w) as [[] w1| |]; inversion H. reflexivity.
Qed.

(** ** Instances on the test double *)

(** The run [Demo.traffic] records two delays of -10ms; two more
    deliveries follow, with the delays -7ns and 5ns. *)
Lemma recorded_delays_between_extremes_witness :
  recorded_delays Demo.busy = [-10000000; -10000000] /\
  Forall (fun d => minLatency (peer Demo.busy) <= d <= maxLatency (peer Demo.busy))
         (recorded_delays Demo.busy) /\
  exists w',
    deliver_all [(Demo.hello, -7); (Demo.bad, 5)] Demo.busy = Ok tt w' /\
    Forall (fun d => minLatency (peer w') <= d <= maxLatency (peer w'))
           (recorded_delays Demo.busy ++ [-7; 5]).
Proof.
  split; [vm_compute; reflexivity|].
  assert (Hreach : reachable Demo.busy).
  { apply (reachable_run Demo.env_neg Demo.zero Demo.fifty_ms Demo.traffic
             (results_after Demo.traffic (boot Demo.env_neg Demo.zero Demo.fifty_ms))).
    vm_compute. reflexivity. }
  destruct (recorded_delays_between_extremes Demo.busy Hreach) as [Hall Hmore].
  split; [exact Hall|]. exact (Hmore [(Demo.hello, -7); (Demo.bad, 5)]).
Defined.

(** Two messages sent, none delivered. *)
Lemma GetLatencies_sentinel_witness :
  exists lo hi total w',
    GetLatencies Demo.waiting = Ok (lo, hi, total) w' /\
    (deliveries (trace Demo.waiting) = [] ->
     (lo, hi, total) = (2 ^ 63 - 1, 0, 0) /\ hi < lo) /\
    (deliveries (trace Demo.waiting) <> [] -> lo <= hi).
Proof.
  apply GetLatencies_sentinel.
  apply (reachable_run Demo.env_neg Demo.zero Demo.fifty_ms
           [OpSend Demo.hello; OpSend Demo.bad; OpUpdate]
           (results_after [OpSend Demo.hello; OpSend Demo.bad; OpUpdate]
              (boot Demo.env_neg Demo.zero Demo.fifty_ms))).
  vm_compute. reflexivity.
Defined.

(** C1, as stated, fails: with a mean latency of 2^62 ns and the normal
    sample 0, two deliveries record the delays 2^62 and 2^62, whose sum
    2^63 no [int64] holds; the cumulative delay ends at -2^63, and the
    second delivery moved it from 2^62 down to -2^63. *)
Lemma cumulative_delay_overflows :
  exec Demo.two_deliveries (boot Demo.env0 Demo.zero Demo.long_latency) =
    Ok [RError None; RError None; RUnit; RUnit] Demo.overflowed /\
  recorded_delays Demo.overflowed = [2 ^ 62; 2 ^ 62] /\
  totalLatency (peer Demo.overflowed) = - 2 ^ 63 /\
  totalLatency (peer Demo.overflowed) <> sumZ (recorded_delays Demo.overflowed).
Proof.
  split; [vm_compute; reflexivity|].
  split; [vm_compute; reflexivity|].
  split; [vm_compute; reflexivity|].
  vm_compute. discriminate.
Qed.

(** The first of the two waiting messages is delivered. *)
Lemma delivery_updates_statistics_witness :
  nth_error (sched Demo.waiting) 0 = Some (TxDelay Demo.hello (-10000000), -10000000) /\
  exists w',
    fire 0 Demo.waiting = Ok tt w' /\
    msgCount (peer w') = 1 /\ bytesCount (peer w') = 5 /\
    totalLatency (peer w') = -10000000.
Proof.
  split; [vm_compute; reflexivity|].
  destruct (delivery_updates_statistics Demo.waiting 0 Demo.hello (-10000000) (-10000000))
    as (w' & Hf & Hm & Hb & Ht & _).
  - apply (reachable_run Demo.env_neg Demo.zero Demo.fifty_ms
             [OpSend Demo.hello; OpSend Demo.bad; OpUpdate]
             (results_after [OpSend Demo.hello; OpSend Demo.bad; OpUpdate]
                (boot Demo.env_neg Demo.zero Demo.fifty_ms))).
    vm_compute. reflexivity.
  - vm_compute. reflexivity.
  - exists w'. split; [exact Hf|].
    split; [rewrite Hm; vm_compute; reflexivity|].
    split; [rewrite Hb; vm_compute; reflexivity|].
    rewrite Ht. vm_compute. reflexivity.
Defined.

(** C8, as stated, fails: after 2^33 - 1 rounds in which a payload of 2^30
    bytes is sent and delivered the byte counter stands at 2^63 - 2^30, and
    one more round takes it down to -2^63. *)
Lemma byte_counter_wraps :
  exists rs w rs' w',
    exec (rounds Demo.many Demo.gigabyte) (boot Demo.env0 Demo.zero 0) = Ok rs w /\
    exec (round Demo.gigabyte) w = Ok rs' w' /\
    bytesCount (peer w) = 2 ^ 63 - 2 ^ 30 /\
    bytesCount (peer w') = - 2 ^ 63 /\
    bytesCount (peer w') < bytesCount (peer w).
Proof.
  assert (Hlen : Z.of_nat (List.length Demo.gigabyte) = 2 ^ 30).
  { unfold Demo.gigabyte. rewrite repeat_length. apply Z2Nat.id. lia. }
  assert (Hmany : Z.of_nat Demo.many = 2 ^ 33 - 1).
  { unfold Demo.many. apply Z2Nat.id. lia. }
  destruct (rounds_spec Demo.many Demo.gigabyte (boot Demo.env0 Demo.zero 0))
    as (rs & w & He & Hw & Hq & Hb).
  { apply boot_settled. }
  { reflexivity. }
  { apply (Int64Facts.wrap_in_range 0). }
  destruct (round_spec w Demo.gigabyte Hw Hq) as (rs' & w' & He' & _ & _ & Hb').
  rewrite Hmany, Hlen in Hb. rewrite Hlen in Hb'.
  change (bytesCount (peer (boot Demo.env0 Demo.zero 0))) with 0 in Hb.
  assert (H1 : bytesCount (peer w) = 2 ^ 63 - 2 ^ 30).
  { rewrite Hb. vm_compute. reflexivity. }
  assert (H2 : bytesCount (peer w') = - 2 ^ 63).
  { rewrite Hb', H1. vm_compute. reflexivity. }
  exists rs, w, rs', w'.
  split; [exact He|]. split; [exact He'|]. split; [exact H1|]. split; [exact H2|].
  rewrite H1, H2. lia.
Qed.

(** Both waiting messages are delivered and the transport is closed. *)
Lemma counters_never_decrease_within_int64_witness :
  exec Demo.drain Demo.waiting = Ok [RUnit; RUnit; RUnit] Demo.drained /\
  msgCount (peer Demo.waiting) <= msgCount (peer Demo.drained) /\
  bytesCount (peer Demo.waiting) <= bytesCount (peer Demo.drained).
Proof.
  assert (Hrun : exec Demo.drain Demo.waiting = Ok [RUnit; RUnit; RUnit] Demo.drained)
    by (vm_compute; reflexivity).
  assert (Hreach : exec [OpSend Demo.hello; OpSend Demo.bad; OpUpdate]
                     (boot Demo.env_neg Demo.zero Demo.fifty_ms) =
                   Ok [RError None; RError None; RUnit] Demo.waiting)
    by (vm_compute; reflexivity).
  split; [exact Hrun|].
  apply (proj1 (counters_never_decrease_within_int64 Demo.waiting
                  (reachable_run _ _ _ _ _ _ Hreach))
           Demo.drain [RUnit; RUnit; RUnit] Demo.drained Hrun).
  - vm_compute. discriminate.
  - vm_compute. discriminate.
Defined.

Lemma waiting_reachable : reachable Demo.waiting.
Proof.
  apply (reachable_run Demo.env_neg Demo.zero Demo.fifty_ms
           [OpSend Demo.hello; OpSend Demo.bad; OpUpdate]
           [RError None; RError None; RUnit]).
  vm_compute. reflexivity.
Defined.

Lemma drained_reachable : reachable Demo.drained.
Proof.
  apply (reachable_exec Demo.drain Demo.waiting [RUnit; RUnit; RUnit]).
  - exact waiting_reachable.
  - vm_compute. reflexivity.
Defined.

(** [Update] on a running transport and on a closed one. *)
Lemma Update_two_states_witness :
  (die (peer Demo.waiting) = ChanOpen /\
   exists w',
     Update Demo.waiting = Ok tt w' /\
     sched w' = sched Demo.waiting ++ [(UpdateTask, 25000000)] /\
     Demo.ticks (c (peer w')) = Demo.ticks (c (peer Demo.waiting)) + 1) /\
  (die (peer Demo.drained) = ChanClosed /\
   exists w',
     Update Demo.drained = Ok tt w' /\
     sched w' = sched Demo.drained /\
     c (peer w') = c (peer Demo.drained)).
Proof.
  split.
  - split; [vm_compute; reflexivity|].
    destruct (Update_two_states Demo.waiting waiting_reachable)
      as (w' & Hu & _ & Hcase & _).
    change (die (peer Demo.waiting)) with ChanOpen in Hcase.
    destruct Hcase as (_ & _ & Hc & Hq).
    exists w'. split; [exact Hu|]. split.
    + rewrite Hq. vm_compute. reflexivity.
    + rewrite Hc. vm_compute. reflexivity.
  - split; [vm_compute; reflexivity|].
    destruct (Update_two_states Demo.drained drained_reachable)
      as (w' & Hu & _ & Hcase & _).
    change (die (peer Demo.drained)) with ChanClosed in Hcase.
    destruct Hcase as (_ & _ & Hc & Hq).
    exists w'. auto.
Defined.

(** The second waiting message starts with a zero byte: the engine
    rejects it, and it is counted. *)
Lemma rejected_message_is_counted_witness :
  nth_error (sched Demo.waiting) 1 = Some (TxDelay Demo.bad (-10000000), -9000000) /\
  Consensus.ReceiveMessage (c (peer Demo.waiting)) Demo.bad
    (env_now (env Demo.waiting) (clock_reads Demo.waiting)) =
    (c (peer Demo.waiting), ErrMessageSignature) /\
  exists w',
    fire 1 Demo.waiting = Ok tt w' /\
    msgCount (peer w') = 1 /\ bytesCount (peer w') = 2 /\
    (minLatency (peer w'), maxLatency (peer w'), totalLatency (peer w')) =
      (-10000000, 0, -10000000).
Proof.
  split; [vm_compute; reflexivity|].
  split; [vm_compute; reflexivity|].
  destruct (rejected_message_is_counted Demo.waiting 1 Demo.bad (-10000000) (-9000000)
              (c (peer Demo.waiting)) ErrMessageSignature waiting_reachable)
    as (w' & Hf & _ & Hm & Hb & Hlo & Hhi & Ht & _).
  - vm_compute. reflexivity.
  - vm_compute. reflexivity.
  - exists w'. split; [exact Hf|].
    rewrite Hm, Hb, Hlo, Hhi, Ht. vm_compute. auto.
Defined.

(** C4, as stated, fails at the mean latency 0, which the claim admits:
    no sample whose conversion the language defines gives a negative
    delay, on any platform. *)
Lemma zero_latency_is_never_negative :
  ~ exists conv z,
      Float64.representable
        (Float64.mul (Float64.mul Float64.c0_1 z) (Float64.of_int 0)) = true /\
      delay_of conv 0 z < 0.
Proof.
  intros (conv & z & Hr & Hneg).
  rewrite (delay_of_zero_latency conv z Hr) in Hneg. lia.
Qed.

(** The product is cut to whole nanoseconds: with the mean 15ns and the
    sample 1 it is 1.5, and the delay is 16ns. *)
Example delay_of_fifteen_ns :
  delay_of (env_conv Demo.env0) 15 (Float64.of_int 1) = 16.
Proof. vm_compute. reflexivity. Qed.

(** Fifty milliseconds and the sample -12: the delay is -10ms. *)
Example delay_of_fifty_ms :
  delay_of (env_conv Demo.env_neg) Demo.fifty_ms (Float64.of_int (-12)) = -10000000.
Proof. vm_compute. reflexivity. Qed.

(** Fifty milliseconds and the sample -20: the delay is -50ms. *)
Lemma delay_is_not_clamped_witness :
  0 < Demo.fifty_ms < 2 ^ 53 /\
  delay_of (env_conv Demo.env0) Demo.fifty_ms (Float64.of_int (-20)) = -50000000.
Proof.
  assert (Hm : 0 < Demo.fifty_ms < 2 ^ 53)
    by (unfold Demo.fifty_ms, Millisecond; lia).
  split; [exact Hm|].
  exact (proj1 (proj2 (proj2 (delay_is_not_clamped (env_conv Demo.env0))))
           Demo.fifty_ms Hm).
Defined.

(** * More of the transport: locks, conservation, shutdown, ticks *)

Section TransportInvariants.

Context {C : Type} {E : Consensus.Engine C}.

(** *** The lock *)

Lemma lock_discipline_app tr1 : forall held tr2,
  lock_discipline held (tr1 ++ tr2) =
    match lock_discipline held tr1 with
    | Some held' => lock_discipline held' tr2
    | None => None
    end.
Proof.
  induction tr1 as [|[e s] tr1 IH]; intros held tr2; [reflexivity|].
  cbn. destruct e as [| | | | |[]|]; destruct held; cbn; auto.
Qed.

Lemma step_locks o (w : World C) r w' :
  settled w -> step o w = Ok r w' ->
  lock_discipline false (trace w) = Some false ->
  lock_discipline false (trace w') = Some false.
Proof.
  intros [Hm Hd] Hs Hl. open_world w. revert Hs.
  destruct o; run_m.
  all: intros Hs; try discriminate.
  all: inversion Hs; subst; clear Hs; cbn.
  all: rewrite ?lock_discipline_app, ?Hl; cbn; try reflexivity; try assumption.
Qed.

(** X1. In every world a fresh transport can reach the trace keeps the
    lock discipline and ends with the mutex free: [Lock] and [Unlock]
    alternate, no method returns holding the lock or unlocks a free
    mutex, and every call of the engine's [ReceiveMessage] and [Update]
    and every re-submission of [Update] happens while the lock is held. *)
Theorem lock_discipline_kept w :
  reachable w -> lock_discipline false (trace w) = Some false.
Proof.
  revert w. apply reachable_ind.
  - reflexivity.
  - intros o w r w' Hw IH Hs. exact (step_locks o w r w' Hw Hs IH).
Qed.

(** X2. While the mutex is held, [Send], [Close] and [GetPublicKey] still
    complete, and leave it held: they never take the lock.  Every other
    method, and the delivery task, waits. *)
Theorem only_some_methods_lock (w : World C) :
  Mutex (peer w) = true ->
  (forall msg, exists w', Send msg w = Ok None w' /\ Mutex (peer w') = true) /\
  ((dieOnce (peer w) = true <-> die (peer w) = ChanClosed) ->
   exists w',
     Close w = Ok tt w' /\ die (peer w') = ChanClosed /\ Mutex (peer w') = true) /\
  GetPublicKey w = Ok (Consensus.PublicKey (c (peer w))) w /\
  Update w = Blocked /\
  GetMessageCount w = Blocked /\
  GetBytesCount w = Blocked /\
  GetLatencies w = Blocked /\
  GetLatestState w = Blocked /\
  (forall s, Propose s w = Blocked) /\
  (forall msg d, txDelay msg d w = Blocked).
Proof.
  intros Hm. split; [|split].
  - intros msg. destruct (Send_run w msg) as (w' & Hs & Hp & _).
    exists w'. rewrite Hp. auto.
  - intros [H1 H2]. open_world w. run_m.
    all: try solve [eexists; split; [reflexivity|]; cbn; auto].
    exfalso. specialize (H2 eq_refl). discriminate.
  - unfold_m. rewrite Hm. repeat split; reflexivity.
Qed.

(** *** Delivery tasks are neither lost nor duplicated *)

Lemma pending_app q1 q2 : pending (q1 ++ q2) = pending q1 ++ pending q2.
Proof. apply flat_map_app. Qed.

Lemma sent_app tr1 tr2 : sent (tr1 ++ tr2) = sent tr1 ++ sent tr2.
Proof. apply flat_map_app. Qed.

Lemma received_app tr1 tr2 : received (tr1 ++ tr2) = received tr1 ++ received tr2.
Proof. apply flat_map_app. Qed.

Lemma pending_remove_delivery q : forall i msg d t,
  nth_error q i = Some (TxDelay msg d, t) ->
  Permutation (pending q) ((msg, d) :: pending (remove_nth i q)).
Proof.
  induction q as [|[f t0] q IH]; intros i msg d t Hn.
  - destruct i; discriminate.
  - destruct i as [|i]; cbn in Hn.
    + inversion Hn; subst. reflexivity.
    + cbn [remove_nth]. change (pending ((f, t0) :: q)) with (pending_of (f, t0) ++ pending q).
      change (pending ((f, t0) :: remove_nth i q))
        with (pending_of (f, t0) ++ pending (remove_nth i q)).
      rewrite (IH i msg d t Hn). symmetry. apply Permutation_middle.
Qed.

Lemma pending_remove_tick q : forall i t,
  nth_error q i = Some (UpdateTask, t) ->
  pending (remove_nth i q) = pending q.
Proof.
  induction q as [|[f t0] q IH]; intros i t Hn.
  - destruct i; discriminate.
  - destruct i as [|i]; cbn in Hn.
    + inversion Hn; subst. reflexivity.
    + cbn [remove_nth]. change (pending ((f, t0) :: q)) with (pending_of (f, t0) ++ pending q).
      change (pending ((f, t0) :: remove_nth i q))
        with (pending_of (f, t0) ++ pending (remove_nth i q)).
      rewrite (IH i t Hn). reflexivity.
Qed.

Lemma step_conserves o (w : World C) r w' :
  settled w -> step o w = Ok r w' ->
  Permutation (sent (trace w)) (deliveries (trace w) ++ pending (sched w)) ->
  Permutation (sent (trace w')) (deliveries (trace w') ++ pending (sched w')).
Proof.
  intros [Hm Hd] Hs Hp. open_world w. revert Hs.
  destruct o; run_m.
  all: intros Hs; try discriminate.
  all: inversion Hs; subst; clear Hs; cbn.
  all: rewrite ?sent_app, ?deliveries_app, ?pending_app; cbn; rewrite ?app_nil_r.
  all: change (flat_map pending_of) with pending in *.
  all: change (flat_map sent_of) with sent in *.
  all: try assumption.
  all: try solve [rewrite app_assoc; apply Permutation_app_tail; exact Hp].
  all: try solve [erewrite pending_remove_tick by eassumption; exact Hp].
  all: rewrite <- app_assoc; cbn [app].
  all: etransitivity; [exact Hp|]; apply Permutation_app_head.
  all: eapply pending_remove_delivery; eassumption.
Qed.

Lemma run_conserved (w : World C) :
  reachable w ->
  Permutation (sent (trace w)) (deliveries (trace w) ++ pending (sched w)).
Proof.
  revert w. apply reachable_ind.
  - intros e c0 l0. cbn. constructor.
  - intros o w r w' Hw IH Hs. exact (step_conserves o w r w' Hw Hs IH).
Qed.

(** X3. The transport neither loses nor duplicates a delivery task: in
    every world a fresh transport can reach, the tasks [Send] has handed
    to the scheduler are, up to order, the ones that have been run
    together with the ones that still wait.  So every message sent is
    delivered at most once, and [Close] and [Update] drop none. *)
Theorem deliveries_conserved w :
  reachable w ->
  Permutation (sent (trace w)) (deliveries (trace w) ++ pending (sched w)).
Proof.
  exact (run_conserved w).
Qed.

Lemma step_received o (w : World C) r w' :
  settled w -> step o w = Ok r w' ->
  match delivery_of o w with
  | Some (msg, _) =>
      received (trace w') =
        received (trace w) ++ [(msg, env_now (env w) (clock_reads w))]
  | None => received (trace w') = received (trace w)
  end.
Proof.
  intros [Hm Hd] Hs. open_world w. revert Hs.
  destruct o; run_m.
  all: intros Hs; try discriminate.
  all: inversion Hs; subst; clear Hs; cbn.
  all: rewrite ?received_app; cbn; rewrite ?app_nil_r; reflexivity.
Qed.

(** X4. The engine's [ReceiveMessage] is called once for every delivery
    task that is run, in the order in which they are run and with the
    payload of the task: what the engine has received is what has been
    delivered, and so (X3) part of what has been sent.  The message
    counter is the number of these calls, modulo 2^64. *)
Theorem engine_receives_the_deliveries w :
  reachable w ->
  map fst (received (trace w)) = map fst (deliveries (trace w)) /\
  msgCount (peer w) = Int64.wrap (Z.of_nat (List.length (received (trace w)))).
Proof.
  intros Hr.
  assert (Hmap : map fst (received (trace w)) = map fst (deliveries (trace w))).
  { revert w Hr. apply reachable_ind.
    - reflexivity.
    - intros o w r w' Hw IH Hs.
      pose proof (step_received o w r w' Hw Hs) as Hrc.
      pose proof (step_stats o w r w' Hw Hs) as Hst.
      destruct (delivery_of o w) as [[msg d]|].
      + destruct Hst as [_ Hdl]. rewrite Hrc, Hdl, !map_app, IH. reflexivity.
      + destruct Hst as [_ Hdl]. rewrite Hrc, Hdl. exact IH. }
  split; [exact Hmap|].
  destruct (run_counters w Hr) as (Hm & _). rewrite Hm.
  rewrite <- (length_map fst (received (trace w))), Hmap, length_map. reflexivity.
Qed.

(** *** What the accessors return *)

Lemma getters_settled (w : World C) :
  settled w ->
  exists w1 w2,
    GetMessageCount w = Ok (msgCount (peer w)) w1 /\
    GetBytesCount w = Ok (bytesCount (peer w)) w2 /\
    peer w1 = peer w /\ sched w1 = sched w /\
    peer w2 = peer w /\ sched w2 = sched w.
Proof.
  intros [Hm _]. open_world w. run_m. eexists _, _.
  repeat split; reflexivity.
Qed.

(** X5. [GetMessageCount] returns the number of delivery tasks that have
    been run and [GetBytesCount] the sum of the lengths of their payloads,
    both modulo 2^64; a message that has been sent and still waits in the
    scheduler is not counted.  Neither call changes the transport or the
    scheduler. *)
Theorem counters_report_deliveries w :
  reachable w ->
  exists w1 w2,
    GetMessageCount w =
      Ok (Int64.wrap (Z.of_nat (List.length (sent (trace w))) -
                      Z.of_nat (List.length (pending (sched w))))) w1 /\
    GetBytesCount w = Ok (Int64.wrap (sumZ (delivered_bytes w))) w2 /\
    peer w1 = peer w /\ sched w1 = sched w /\
    peer w2 = peer w /\ sched w2 = sched w.
Proof.
  intros Hr. destruct (getters_settled w (reachable_settled w Hr))
    as (w1 & w2 & H1 & H2 & Hrest).
  destruct (run_counters w Hr) as (Hm & Hb & _).
  pose proof (Permutation_length (run_conserved w Hr)) as Hlen.
  rewrite length_app in Hlen.
  exists w1, w2. rewrite H1, H2, Hm, Hb. split; [|split; [reflexivity|exact Hrest]].
  do 2 f_equal. lia.
Qed.

(** *** Extremes *)

Lemma least_snoc l d : least (l ++ [d]) = Z.min (least l) d.
Proof.
  unfold least. induction l as [|x l IH]; cbn [fold_right app]; [lia|]. rewrite IH. lia.
Qed.

Lemma greatest_snoc l d : greatest (l ++ [d]) = Z.max (greatest l) d.
Proof.
  unfold greatest. induction l as [|x l IH]; cbn [fold_right app]; [lia|]. rewrite IH. lia.
Qed.

Lemma greatest_nonneg l : 0 <= greatest l.
Proof. unfold greatest. induction l as [|x l IH]; cbn [fold_right]; lia. Qed.

(** X6. The minimum [GetLatencies] reports is the least of [MaxInt64] and
    the recorded delays, the maximum the greatest of 0 and the recorded
    delays.  So the reported maximum is never negative: while every
    recorded delay is negative it is 0, which is no recorded delay. *)
Theorem extremes_are_folds w :
  reachable w ->
  minLatency (peer w) = least (recorded_delays w) /\
  maxLatency (peer w) = greatest (recorded_delays w) /\
  0 <= maxLatency (peer w) /\
  (Forall (fun d => d < 0) (recorded_delays w) -> maxLatency (peer w) = 0).
Proof.
  intros Hr.
  assert (H : minLatency (peer w) = least (recorded_delays w) /\
              maxLatency (peer w) = greatest (recorded_delays w)).
  { revert w Hr. apply reachable_ind.
    - intros e c0 l0. split; reflexivity.
    - intros o w r w' Hw [Hlo Hhi] Hs. unfold recorded_delays in *.
      pose proof (step_stats o w r w' Hw Hs) as Hst.
      destruct (delivery_of o w) as [[msg d]|].
      + destruct Hst as [Hst Hdl]. apply (stats_fields (peer w)) in Hst. cbn in Hst.
        destruct Hst as (_ & _ & Hmin & Hmax & _).
        rewrite Hmin, Hmax, Hdl, map_app. cbn [map snd].
        rewrite least_snoc, greatest_snoc, Hlo, Hhi. auto.
      + destruct Hst as [Hst Hdl]. apply stats_same in Hst.
        destruct Hst as (_ & _ & Hmin & Hmax & _).
        rewrite Hmin, Hmax, Hdl. auto. }
  destruct H as [Hlo Hhi]. split; [exact Hlo|]. split; [exact Hhi|]. split.
  - rewrite Hhi. apply greatest_nonneg.
  - rewrite Hhi. generalize (recorded_delays w). unfold greatest.
    induction l as [|x l IH]; intros Hall; [reflexivity|].
    inversion Hall; subst. cbn [fold_right]. rewrite IH by assumption. lia.
Qed.

(** *** Shutdown *)

Lemma Close_settled (w : World C) :
  settled w ->
  exists w',
    Close w = Ok tt w' /\ settled w' /\
    die (peer w') = ChanClosed /\ sched w' = sched w /\
    stats_of (peer w') = stats_of (peer w) /\ c (peer w') = c (peer w) /\
    env w' = env w /\ clock_reads w' = clock_reads w.
Proof.
  intros [Hm [H1 H2]]. open_world w. run_m.
  all: try solve [eexists; split; [reflexivity|]; unfold settled; cbn;
                  repeat split; auto].
  exfalso. specialize (H2 eq_refl). discriminate.
Qed.

(** X7. [Close] cancels nothing.  It leaves the pending callbacks, the
    statistics and the engine as they are, and a delivery task that was
    pending when the transport was closed still runs to the end
    afterwards: it records its delay, counts its message and hands the
    payload to the engine. *)
Theorem Close_cancels_nothing w :
  reachable w ->
  exists w',
    Close w = Ok tt w' /\
    die (peer w') = ChanClosed /\
    sched w' = sched w /\
    stats_of (peer w') = stats_of (peer w) /\
    c (peer w') = c (peer w) /\
    forall i msg d t,
      nth_error (sched w) i = Some (TxDelay msg d, t) ->
      exists w'',
        fire i w' = Ok tt w'' /\
        stats_of (peer w'') = delivered (stats_of (peer w)) msg d /\
        c (peer w'') =
          fst (Consensus.ReceiveMessage (c (peer w)) msg
                 (env_now (env w) (clock_reads w))) /\
        die (peer w'') = ChanClosed.
Proof.
  intros Hr. pose proof (reachable_settled w Hr) as Hw.
  destruct (Close_settled w Hw) as (w' & Hc & Hw' & Hd & Hq & Hst & Hen & He & Hck).
  exists w'. repeat (split; [assumption|]).
  intros i msg d t Hn. rewrite <- Hq in Hn.
  destruct (fire_delivery w' i msg d t Hw' Hn) as (w'' & Hf & Hw'' & Hst' & Hc' & _ & _).
  exists w''. split; [exact Hf|]. rewrite Hst', Hst, Hc', Hen, He, Hck.
  repeat split.
  assert (Hs : step (OpFire i) w' = Ok RUnit w'') by (rewrite step_fire, Hf; reflexivity).
  exact (proj1 (step_closed (OpFire i) w' RUnit w'' Hw' Hs) Hd).
Qed.

(** *** Ticks *)

Lemma pending_ticks_app q1 q2 :
  pending_ticks (q1 ++ q2) = (pending_ticks q1 + pending_ticks q2)%nat.
Proof. unfold pending_ticks. rewrite filter_app, length_app. reflexivity. Qed.

Lemma pending_ticks_remove_tick q : forall i t,
  nth_error q i = Some (UpdateTask, t) ->
  S (pending_ticks (remove_nth i q)) = pending_ticks q.
Proof.
  unfold pending_ticks.
  induction q as [|[f t0] q IH]; intros i t Hn.
  - destruct i; discriminate.
  - destruct i as [|i]; cbn in Hn.
    + inversion Hn; subst. reflexivity.
    + cbn [remove_nth filter]. destruct (is_tick (f, t0)); cbn [List.length];
        rewrite <- (IH i t Hn); reflexivity.
Qed.

Lemma pending_ticks_remove_delivery q : forall i msg d t,
  nth_error q i = Some (TxDelay msg d, t) ->
  pending_ticks (remove_nth i q) = pending_ticks q.
Proof.
  unfold pending_ticks.
  induction q as [|[f t0] q IH]; intros i msg d t Hn.
  - destruct i; discriminate.
  - destruct i as [|i]; cbn in Hn.
    + inversion Hn; subst. reflexivity.
    + cbn [remove_nth filter]. destruct (is_tick (f, t0)); cbn [List.length];
        rewrite (IH i msg d t Hn); reflexivity.
Qed.

Lemma step_ticks o (w : World C) r w' :
  settled w -> step o w = Ok r w' ->
  match die (peer w) with
  | ChanOpen =>
      pending_ticks (sched w') =
        (pending_ticks (sched w) + (if is_OpUpdate o then 1 else 0))%nat /\
      count is_engine_update (trace w') =
        (count is_engine_update (trace w) +
         (if is_OpUpdate o || fires_tick o w then 1 else 0))%nat
  | ChanClosed =>
      (pending_ticks (sched w') + (if fires_tick o w then 1 else 0))%nat =
        pending_ticks (sched w) /\
      count is_engine_update (trace w') = count is_engine_update (trace w)
  end.
Proof.
  intros [Hm Hd] Hs. open_world w. revert Hs.
  destruct o; run_m.
  all: intros Hs; try discriminate.
  all: inversion Hs; subst; clear Hs; cbn.
  all: try match goal with H : nth_error _ _ = Some _ |- _ => rewrite H end.
  all: cbn.
  all: unfold count; rewrite ?filter_app, ?length_app, ?pending_ticks_app; cbn.
  all: try match goal with
           | H : nth_error _ _ = Some (TxDelay _ _, _) |- _ =>
               pose proof (pending_ticks_remove_delivery _ _ _ _ _ H)
           | H : nth_error _ _ = Some (UpdateTask, _) |- _ =>
               pose proof (pending_ticks_remove_tick _ _ _ H)
           end.
  all: unfold pending_ticks in *; rewrite ?filter_app, ?length_app; cbn.
  all: try solve [split; lia].
  all: exfalso; destruct Hd as [H1 H2]; specialize (H2 eq_refl); discriminate.
Qed.

Lemma exec_ticks_closed ops : forall (w : World C) rs w',
  settled w -> die (peer w) = ChanClosed -> exec ops w = Ok rs w' ->
  (pending_ticks (sched w') <= pending_ticks (sched w))%nat /\
  count is_engine_update (trace w') = count is_engine_update (trace w).
Proof.
  induction ops as [|o ops IH]; intros w rs w' Hw Hc He.
  - cbn in He. inversion He; subst. auto.
  - apply exec_cons in He as (r & w1 & rs' & Hs & He & ->).
    destruct (step_settled o w Hw) as (r1 & w1' & Hs' & Hw1).
    rewrite Hs in Hs'. inversion Hs'; subst r1 w1'. clear Hs'.
    pose proof (step_ticks o w r w1 Hw Hs) as Ht. rewrite Hc in Ht.
    pose proof (proj1 (step_closed o w r w1 Hw Hs) Hc) as Hc1.
    destruct (IH w1 rs' w' Hw1 Hc1 He) as [H1 H2].
    destruct Ht as [Ht1 Ht2]. split; [|congruence].
    destruct (fires_tick o w); lia.
Qed.

(** X8. Once the transport is closed the tick loop only runs out: through
    every further run the engine's [Update] is never called again, no
    [Update] callback is added to the pending ones, and a pending one that
    the scheduler runs is gone afterwards. *)
Theorem closed_transport_stops_ticking w :
  reachable w -> die (peer w) = ChanClosed ->
  (forall ops rs w',
     exec ops w = Ok rs w' ->
     count is_engine_update (trace w') = count is_engine_update (trace w) /\
     (pending_ticks (sched w') <= pending_ticks (sched w))%nat) /\
  (forall i t,
     nth_error (sched w) i = Some (UpdateTask, t) ->
     exists w',
       fire i w = Ok tt w' /\
       S (pending_ticks (sched w')) = pending_ticks (sched w)).
Proof.
  intros Hr Hc. pose proof (reachable_settled w Hr) as Hw. split.
  - intros ops rs w' He.
    destruct (exec_ticks_closed ops w rs w' Hw Hc He). auto.
  - intros i t Hn.
    destruct (step_settled (OpFire i) w Hw) as (r & w' & Hs & _).
    pose proof (step_ticks (OpFire i) w r w' Hw Hs) as Ht.
    rewrite Hc in Ht. cbn [fires_tick] in Ht. rewrite Hn in Ht.
    rewrite step_fire in Hs. destruct (fire i w) as [[] w1| |] eqn:Hf; try discriminate.
    inversion Hs; subst. exists w'. split; [reflexivity|]. lia.
Qed.

Lemma exec_ticks_open ops : forall (w : World C) rs w',
  settled w -> die (peer w) = ChanOpen -> existsb is_OpClose ops = false ->
  exec ops w = Ok rs w' ->
  die (peer w') = ChanOpen /\
  pending_ticks (sched w') =
    (pending_ticks (sched w) + List.length (filter is_OpUpdate ops))%nat.
Proof.
  induction ops as [|o ops IH]; intros w rs w' Hw Ho Hnc He.
  - cbn in He. inversion He; subst. cbn. split; [assumption|lia].
  - apply exec_cons in He as (r & w1 & rs' & Hs & He & ->).
    cbn [existsb] in Hnc. apply orb_false_elim in Hnc as [Hno Hnc].
    destruct (step_settled o w Hw) as (r1 & w1' & Hs' & Hw1).
    rewrite Hs in Hs'. inversion Hs'; subst r1 w1'. clear Hs'.
    pose proof (step_ticks o w r w1 Hw Hs) as Ht. rewrite Ho in Ht.
    assert (Ho1 : die (peer w1) = ChanOpen).
    { destruct (die (peer w1)) eqn:Hd1; [reflexivity|].
      assert (Hne : die (peer w1) <> die (peer w)) by congruence.
      pose proof (proj2 (step_closed o w r w1 Hw Hs) Hne) as ->. discriminate. }
    destruct (IH w1 rs' w' Hw1 Ho1 Hnc He) as [H1 H2].
    split; [exact H1|]. rewrite H2. destruct Ht as [Ht _]. rewrite Ht.
    cbn [filter]. destruct (is_OpUpdate o); cbn [List.length]; lia.
Qed.

(** X9. While the transport is open the tick loop neither dies nor
    multiplies by itself: after a run without [Close], the number of
    pending [Update] callbacks is the number of direct calls of [Update]
    in the run.  A callback that fires re-arms itself once, and every
    further direct call starts one more loop. *)
Theorem ticks_perpetuate e (c0 : C) latency0 ops rs w :
  exec ops (boot e c0 latency0) = Ok rs w ->
  existsb is_OpClose ops = false ->
  die (peer w) = ChanOpen /\
  pending_ticks (sched w) = List.length (filter is_OpUpdate ops).
Proof.
  intros He Hnc.
  exact (exec_ticks_open ops _ rs w (boot_settled e c0 latency0) eq_refl Hnc He).
Qed.

(** *** The pass-throughs to the engine *)

Lemma passthroughs_settled (w : World C) s :
  settled w ->
  exists w1 w2,
    Propose s w = Ok tt w1 /\
    GetLatestState w1 =
      Ok (Consensus.CurrentState (Consensus.Propose (c (peer w)) s)) w2 /\
    c (peer w2) = Consensus.Propose (c (peer w)) s /\
    stats_of (peer w2) = stats_of (peer w) /\
    sched w2 = sched w /\ die (peer w2) = die (peer w) /\
    Mutex (peer w2) = false /\
    map ev (trace w2) = map ev (trace w) ++ [EvLock; EvUnlock; EvLock; EvUnlock].
Proof.
  intros [Hm _]. open_world w. run_m. eexists _, _.
  split; [reflexivity|]. split; [reflexivity|]. cbn.
  rewrite !map_app. cbn. rewrite <- !app_assoc. repeat split; reflexivity.
Qed.

(** X10. [Propose] hands the state to the engine's [Propose] under the
    lock and [GetLatestState] returns what the engine's [CurrentState]
    reports: a proposal followed by a reading returns the engine's answer
    after that proposal.  The two calls take and release the lock once
    each and touch neither the statistics, nor the pending callbacks, nor
    the termination channel. *)
Theorem Propose_then_GetLatestState w s :
  reachable w ->
  exists w1 w2,
    Propose s w = Ok tt w1 /\
    GetLatestState w1 =
      Ok (Consensus.CurrentState (Consensus.Propose (c (peer w)) s)) w2 /\
    c (peer w2) = Consensus.Propose (c (peer w)) s /\
    stats_of (peer w2) = stats_of (peer w) /\
    sched w2 = sched w /\ die (peer w2) = die (peer w) /\
    Mutex (peer w2) = false /\
    map ev (trace w2) = map ev (trace w) ++ [EvLock; EvUnlock; EvLock; EvUnlock].
Proof. intros Hr. exact (passthroughs_settled w s (reachable_settled w Hr)). Qed.

(** *** From [Send] to the engine *)

Lemma nth_error_last {A} (q : list A) x : nth_error (q ++ [x]) (List.length q) = Some x.
Proof. induction q as [|y q IH]; [reflexivity|exact IH]. Qed.

Lemma remove_nth_last {A} (q : list A) x : remove_nth (List.length q) (q ++ [x]) = q.
Proof. induction q as [|y q IH]; [reflexivity|]. cbn. rewrite IH. reflexivity. Qed.

(** X11. A message that is sent and whose task the scheduler then runs
    reaches the engine as it was sent: the task records the delay that
    [Send] sampled, counts the payload that [Send] was given and passes
    that payload to [ReceiveMessage], with the clock reading of the
    delivery, not of the submission; the pending callbacks are again what
    they were. *)
Theorem sent_message_is_delivered w msg :
  reachable w ->
  exists w1 w2,
    Send msg w = Ok None w1 /\
    fire (List.length (sched w)) w1 = Ok tt w2 /\
    sched w2 = sched w /\
    stats_of (peer w2) =
      delivered (stats_of (peer w)) msg
        (delay_of (env_conv (env w)) (latency (peer w))
                  (env_norm (env w) (rand_reads w))) /\
    c (peer w2) =
      fst (Consensus.ReceiveMessage (c (peer w)) msg
             (env_now (env w) (S (clock_reads w)))) /\
    received (trace w2) =
      received (trace w) ++ [(msg, env_now (env w) (S (clock_reads w)))].
Proof.
  intros Hr. pose proof (reachable_settled w Hr) as Hw.
  assert (Hstep : exists w1,
            Send msg w = Ok None w1 /\ peer w1 = peer w /\
            sched w1 = sched w ++
              [(TxDelay msg (delay_of (env_conv (env w)) (latency (peer w))
                                      (env_norm (env w) (rand_reads w))),
                time_Add (env_now (env w) (clock_reads w))
                  (delay_of (env_conv (env w)) (latency (peer w))
                            (env_norm (env w) (rand_reads w))))] /\
            env w1 = env w /\ clock_reads w1 = S (clock_reads w) /\
            received (trace w1) = received (trace w)).
  { destruct w as [p q e cr rr tr]. unfold_m. cbn. eexists.
    split; [reflexivity|]. cbn. rewrite received_app. cbn. rewrite app_nil_r.
    repeat split; reflexivity. }
  destruct Hstep as (w1 & Hs & Hp & Hq & He & Hck & Hrc).
  assert (Hw1 : settled w1) by (unfold settled; rewrite Hp; exact Hw).
  destruct (fire_delivery w1 (List.length (sched w)) msg _ _ Hw1
              ltac:(rewrite Hq; apply nth_error_last))
    as (w2 & Hf & _ & Hst & Hc & Hq2 & Htr).
  exists w1, w2. split; [exact Hs|]. split; [exact Hf|].
  split; [rewrite Hq2, Hq; apply remove_nth_last|].
  split; [rewrite Hst, Hp; reflexivity|].
  split; [rewrite Hc, Hp, He, Hck; reflexivity|].
  rewrite Htr, received_app, Hrc, He, Hck. reflexivity.
Qed.

(** *** Samples and delays *)

Lemma step_samples o (w : World C) r w' :
  settled w -> step o w = Ok r w' ->
  env w' = env w /\ latency (peer w') = latency (peer w) /\
  match o with
  | OpSend msg =>
      rand_reads w' = S (rand_reads w) /\
      sent (trace w') =
        sent (trace w) ++
        [(msg, delay_of (env_conv (env w)) (latency (peer w))
                        (env_norm (env w) (rand_reads w)))]
  | _ => rand_reads w' = rand_reads w /\ sent (trace w') = sent (trace w)
  end.
Proof.
  intros [Hm Hd] Hs. open_world w. revert Hs.
  destruct o; run_m.
  all: intros Hs; try discriminate.
  all: inversion Hs; subst; clear Hs; cbn.
  all: rewrite ?sent_app; cbn; rewrite ?app_nil_r.
  all: repeat split; reflexivity.
Qed.

Lemma exec_samples ops : forall (w0 : World C) rs w,
  settled w0 -> exec ops w0 = Ok rs w ->
  env w = env w0 /\ latency (peer w) = latency (peer w0) /\
  sent (trace w) =
    sent (trace w0) ++
    map (fun mk => (fst mk, delay_of (env_conv (env w0)) (latency (peer w0))
                                     (env_norm (env w0) (snd mk))))
        (numbered (rand_reads w0) (sends ops)).
Proof.
  induction ops as [|o ops IH]; intros w0 rs w Hw He.
  - cbn in He. inversion He; subst. cbn. rewrite app_nil_r. auto.
  - apply exec_cons in He as (r & w1 & rs' & Hs & He & ->).
    destruct (step_settled o w0 Hw) as (r1 & w1' & Hs' & Hw1).
    rewrite Hs in Hs'. inversion Hs'; subst r1 w1'. clear Hs'.
    destruct (step_samples o w0 r w1 Hw Hs) as (Henv & Hlat & Ho).
    destruct (IH w1 rs' w Hw1 He) as (Henv' & Hlat' & Hsent).
    split; [congruence|]. split; [congruence|].
    rewrite Hsent, Henv, Hlat. unfold numbered, sends.
    destruct o; destruct Ho as [Hrr Hst]; rewrite Hrr, Hst;
      cbn [flat_map app]; try reflexivity.
    cbn [List.length seq combine map fst snd]. rewrite <- app_assoc. reflexivity.
Qed.

(** X12. The delays are a function of the samples alone.  After any run
    of a fresh transport with mean latency [latency0], the delivery tasks
    handed to the scheduler are the payloads passed to [Send], in order,
    the k-th one with the delay computed from [latency0] and the k-th
    normal sample, whatever other operations the run interleaves; the
    configured latency is never changed. *)
Theorem delays_follow_the_samples e (c0 : C) latency0 ops rs w :
  exec ops (boot e c0 latency0) = Ok rs w ->
  latency (peer w) = latency0 /\
  sent (trace w) =
    map (fun mk => (fst mk, delay_of (env_conv e) latency0 (env_norm e (snd mk))))
        (numbered 0 (sends ops)).
Proof.
  intros He.
  destruct (exec_samples ops _ rs w (boot_settled e c0 latency0) He)
    as (_ & Hlat & Hsent).
  split; [exact Hlat | exact Hsent].
Qed.

End TransportInvariants.

(** ** More of the delay generator: mirrored samples *)

Module Float64Mirror.
Import Float64.

Lemma round_aux_opp s m e l :
  binary_round_aux prec emax (negb s) m e l =
    SFopp (binary_round_aux prec emax s m e l).
Proof.
  unfold binary_round_aux.
  destruct (shr_fexp prec emax m e l) as [mrs e'].
  destruct (shr_fexp prec emax _ e' loc_Exact) as [mrs' e''].
  destruct (shr_m mrs') as [|p|p]; cbn; try reflexivity.
  destruct (e'' <=? _); reflexivity.
Qed.

Lemma mul_opp_r x y : mul x (SFopp y) = SFopp (mul x y).
Proof.
  destruct x as [sx|sx| |sx mx ex], y as [sy|sy| |sy my ey]; cbn;
    try reflexivity; try (destruct sx, sy; reflexivity).
  replace (xorb sx (negb sy)) with (negb (xorb sx sy)) by (destruct sx, sy; reflexivity).
  apply round_aux_opp.
Qed.

Lemma mul_opp_l x y : mul (SFopp x) y = SFopp (mul x y).
Proof.
  destruct x as [sx|sx| |sx mx ex], y as [sy|sy| |sy my ey]; cbn;
    try reflexivity; try (destruct sx, sy; reflexivity).
  replace (xorb (negb sx) sy) with (negb (xorb sx sy)) by (destruct sx, sy; reflexivity).
  apply round_aux_opp.
Qed.

Lemma trunc_opp f : trunc (SFopp f) = option_map Z.opp (trunc f).
Proof.
  destruct f as [s|s| |s m e]; cbn; try reflexivity.
  destruct s; cbn; f_equal; lia.
Qed.

Lemma of_int_opp p : of_int (Z.neg p) = SFopp (of_int (Z.pos p)).
Proof.
  unfold of_int, binary_normalize, binary_round.
  destruct (shl_align p 0 _) as [mz ez].
  apply (round_aux_opp false).
Qed.

(** [float64(m)] is a finite float for every [m] an [int64] holds. *)
Lemma of_int_pos_finite p : Z.pos p <= 2 ^ 63 -> finite (of_int (Z.pos p)).
Proof.
  intros Hp.
  destruct (Z_lt_le_dec (Z.pos p) (2 ^ 53)) as [Hs|Hs].
  - destruct (Float64Facts.of_int_small p Hs) as (mz & ez & -> & _). exact I.
  - destruct (Z.eq_dec (Z.pos p) (2 ^ 63)) as [Ht|Ht].
    + assert (p = 9223372036854775808%positive) as -> by (apply Pos2Z.inj; exact Ht).
      vm_compute. exact I.
    + destruct (Float64Facts.of_int_big p) as (mz & ez & -> & _); [lia|exact I].
Qed.

Lemma of_int_finite m : Int64.in_range m -> finite (of_int m).
Proof.
  unfold Int64.in_range, Int64.MinInt64, Int64.MaxInt64. intros Hm.
  destruct m as [|p|p].
  - exact I.
  - apply of_int_pos_finite. lia.
  - rewrite of_int_opp. pose proof (of_int_pos_finite p ltac:(lia)) as H.
    destruct (of_int (Z.pos p)); cbn in *; assumption.
Qed.

End Float64Mirror.

Section DelayMirror.

Import Float64.

Variable conv : float64 -> Z.

(** X13. The delays are mirrored about the mean.  When the truncated
    product for the sample [z] is [j], the truncated product for [-z] is
    [-j]: the delays are [m + j] and [m - j] as [int64] sums, and add up
    to [2 * m] when neither sum overflows.  The sample 0, of either sign,
    returns the mean itself, for every mean an [int64] holds. *)
Theorem delay_is_mirrored m z j :
  trunc (mul (mul c0_1 z) (of_int m)) = Some j ->
  - Int64.MaxInt64 <= j <= Int64.MaxInt64 ->
  delay_of conv m z = Int64.wrap (m + j) /\
  delay_of conv m (SFopp z) = Int64.wrap (m - j) /\
  (Int64.in_range (m + j) -> Int64.in_range (m - j) ->
   delay_of conv m z + delay_of conv m (SFopp z) = 2 * m) /\
  (Int64.in_range m -> forall s, delay_of conv m (S754_zero s) = m).
Proof.
  intros Ht Hj.
  assert (Hz : delay_of conv m z = Int64.wrap (m + j)).
  { rewrite (delay_of_unclamped conv m z j Ht).
    - f_equal. lia.
    - unfold Int64.in_range, Int64.MinInt64, Int64.MaxInt64 in *. lia. }
  assert (Ho : delay_of conv m (SFopp z) = Int64.wrap (m - j)).
  { rewrite (delay_of_unclamped conv m (SFopp z) (- j)).
    - f_equal. lia.
    - rewrite Float64Mirror.mul_opp_r, Float64Mirror.mul_opp_l,
        Float64Mirror.trunc_opp, Ht. reflexivity.
    - unfold Int64.in_range, Int64.MinInt64, Int64.MaxInt64 in *. lia. }
  split; [exact Hz|]. split; [exact Ho|]. split.
  - intros H1 H2. rewrite Hz, Ho, !Int64Facts.wrap_small by assumption. lia.
  - intros Hm s.
    pose proof (Float64Mirror.of_int_finite m Hm) as Hf.
    rewrite (delay_of_unclamped conv m (S754_zero s) 0).
    + rewrite Int64Facts.wrap_small; [lia|]. replace (0 + m) with m by lia. exact Hm.
    + destruct (of_int m); cbn in *; try contradiction; reflexivity.
    + unfold Int64.in_range, Int64.MinInt64, Int64.MaxInt64. lia.
Qed.

End DelayMirror.

(** ** More instances on the test double *)

Lemma half_delivered_reachable : reachable half_delivered.
Proof.
  apply (reachable_exec [OpFire 1] Demo.waiting [RUnit]).
  - exact waiting_reachable.
  - vm_compute. reflexivity.
Defined.

(** The trace of the drained transport alternates [Lock] and [Unlock]. *)
Lemma lock_discipline_kept_witness :
  lock_discipline false (trace Demo.drained) = Some false.
Proof.
  exact (lock_discipline_kept Demo.drained drained_reachable).
Defined.

(** With the mutex held, [Send] goes through and the locking methods
    wait. *)
Lemma only_some_methods_lock_witness :
  Mutex (peer waiting_locked) = true /\
  (exists w',
     Send Demo.hello waiting_locked = Ok None w' /\ Mutex (peer w') = true) /\
  (exists w',
     Close waiting_locked = Ok tt w' /\ die (peer w') = ChanClosed /\
     Mutex (peer w') = true) /\
  Update waiting_locked = Blocked /\
  GetLatencies waiting_locked = Blocked.
Proof.
  assert (H : Mutex (peer waiting_locked) = true) by (vm_compute; reflexivity).
  destruct (only_some_methods_lock waiting_locked H)
    as (HS & HC & _ & HU & _ & _ & HL & _).
  split; [exact H|]. split; [exact (HS Demo.hello)|].
  split; [|split; assumption].
  apply HC. vm_compute. split; intros H0; discriminate H0.
Defined.

(** Two tasks were handed over; the second has run, the first waits. *)
Lemma deliveries_conserved_witness :
  deliveries (trace half_delivered) = [(Demo.bad, -10000000)] /\
  pending (sched half_delivered) = [(Demo.hello, -10000000)] /\
  Permutation (sent (trace half_delivered))
    (deliveries (trace half_delivered) ++ pending (sched half_delivered)).
Proof.
  split; [vm_compute; reflexivity|]. split; [vm_compute; reflexivity|].
  exact (deliveries_conserved half_delivered half_delivered_reachable).
Defined.

Lemma engine_receives_the_deliveries_witness :
  map fst (received (trace half_delivered)) =
    map fst (deliveries (trace half_delivered)) /\
  msgCount (peer half_delivered) =
    Int64.wrap (Z.of_nat (List.length (received (trace half_delivered)))).
Proof.
  exact (engine_receives_the_deliveries half_delivered half_delivered_reachable).
Defined.

Lemma counters_report_deliveries_witness :
  exists w1 w2,
    GetMessageCount half_delivered =
      Ok (Int64.wrap (Z.of_nat (List.length (sent (trace half_delivered))) -
                      Z.of_nat (List.length (pending (sched half_delivered))))) w1 /\
    GetBytesCount half_delivered =
      Ok (Int64.wrap (sumZ (delivered_bytes half_delivered))) w2 /\
    peer w1 = peer half_delivered /\ sched w1 = sched half_delivered /\
    peer w2 = peer half_delivered /\ sched w2 = sched half_delivered.
Proof.
  exact (counters_report_deliveries half_delivered half_delivered_reachable).
Defined.

(** Both recorded delays are negative, and the maximum stays 0. *)
Lemma extremes_are_folds_witness :
  recorded_delays Demo.drained = [-10000000; -10000000] /\
  minLatency (peer Demo.drained) = least (recorded_delays Demo.drained) /\
  maxLatency (peer Demo.drained) = 0.
Proof.
  assert (Hd : recorded_delays Demo.drained = [-10000000; -10000000])
    by (vm_compute; reflexivity).
  destruct (extremes_are_folds Demo.drained drained_reachable)
    as (Hmin & _ & _ & Hneg).
  split; [exact Hd|]. split; [exact Hmin|].
  apply Hneg. rewrite Hd. repeat constructor.
Defined.

(** The first waiting message is delivered after [Close]. *)
Lemma Close_cancels_nothing_witness :
  nth_error (sched Demo.waiting) 0 =
    Some (TxDelay Demo.hello (-10000000), -10000000) /\
  exists w' w'',
    Close Demo.waiting = Ok tt w' /\
    die (peer w') = ChanClosed /\
    sched w' = sched Demo.waiting /\
    fire 0 w' = Ok tt w'' /\
    stats_of (peer w'') =
      delivered (stats_of (peer Demo.waiting)) Demo.hello (-10000000) /\
    die (peer w'') = ChanClosed.
Proof.
  assert (Hn : nth_error (sched Demo.waiting) 0 =
                 Some (TxDelay Demo.hello (-10000000), -10000000))
    by (vm_compute; reflexivity).
  split; [exact Hn|].
  destruct (Close_cancels_nothing Demo.waiting waiting_reachable)
    as (w' & HC & Hd & Hq & _ & _ & Hfire).
  destruct (Hfire 0%nat Demo.hello (-10000000) (-10000000) Hn)
    as (w'' & Hf & Hst & _ & Hd').
  exists w', w''. repeat split; assumption.
Defined.

(** The drained transport is closed and one [Update] callback waits. *)
Lemma closed_transport_stops_ticking_witness :
  die (peer Demo.drained) = ChanClosed /\
  nth_error (sched Demo.drained) 0 = Some (UpdateTask, 23000000) /\
  (forall rs w',
     exec [OpUpdate; OpFire 0; OpUpdate] Demo.drained = Ok rs w' ->
     count is_engine_update (trace w') =
       count is_engine_update (trace Demo.drained)) /\
  exists w',
    fire 0 Demo.drained = Ok tt w' /\
    S (pending_ticks (sched w')) = pending_ticks (sched Demo.drained).
Proof.
  assert (Hd : die (peer Demo.drained) = ChanClosed) by (vm_compute; reflexivity).
  assert (Hn : nth_error (sched Demo.drained) 0 = Some (UpdateTask, 23000000))
    by (vm_compute; reflexivity).
  destruct (closed_transport_stops_ticking Demo.drained drained_reachable Hd)
    as [Hrun Hfire].
  split; [exact Hd|]. split; [exact Hn|]. split.
  - intros rs w' He. exact (proj1 (Hrun _ rs w' He)).
  - exact (Hfire 0%nat 23000000 Hn).
Defined.

(** One [Update], no [Close]: one callback waits. *)
Lemma ticks_perpetuate_witness :
  die (peer Demo.waiting) = ChanOpen /\
  pending_ticks (sched Demo.waiting) = 1%nat.
Proof.
  apply (ticks_perpetuate Demo.env_neg Demo.zero Demo.fifty_ms
           [OpSend Demo.hello; OpSend Demo.bad; OpUpdate]
           [RError None; RError None; RUnit] Demo.waiting).
  - vm_compute. reflexivity.
  - reflexivity.
Defined.

Lemma Propose_then_GetLatestState_witness :
  exists w1 w2,
    Propose Demo.hello Demo.waiting = Ok tt w1 /\
    GetLatestState w1 = Ok (0, 1, Demo.hello) w2 /\
    sched w2 = sched Demo.waiting /\ Mutex (peer w2) = false.
Proof.
  destruct (Propose_then_GetLatestState Demo.waiting Demo.hello waiting_reachable)
    as (w1 & w2 & HP & HG & _ & _ & Hq & _ & Hm & _).
  exists w1, w2. repeat split; assumption.
Defined.

(** A third message, sent and delivered at once. *)
Lemma sent_message_is_delivered_witness :
  exists w1 w2,
    Send Demo.hello Demo.waiting = Ok None w1 /\
    fire 3 w1 = Ok tt w2 /\
    sched w2 = sched Demo.waiting /\
    received (trace w2) =
      received (trace Demo.waiting) ++ [(Demo.hello, 5000000)].
Proof.
  destruct (sent_message_is_delivered Demo.waiting Demo.hello waiting_reachable)
    as (w1 & w2 & HS & HF & Hq & _ & _ & Hr).
  exists w1, w2. repeat split; assumption.
Defined.

Lemma delays_follow_the_samples_witness :
  latency (peer Demo.waiting) = Demo.fifty_ms /\
  sent (trace Demo.waiting) =
    map (fun mk => (fst mk,
                    delay_of (env_conv Demo.env_neg) Demo.fifty_ms
                             (env_norm Demo.env_neg (snd mk))))
        (numbered 0 [Demo.hello; Demo.bad]).
Proof.
  apply (delays_follow_the_samples Demo.env_neg Demo.zero Demo.fifty_ms
           [OpSend Demo.hello; OpSend Demo.bad; OpUpdate]
           [RError None; RError None; RUnit] Demo.waiting).
  vm_compute. reflexivity.
Defined.

(** Fifty milliseconds of mean latency: the samples -12 and 12 give the
    delays -10ms and 110ms. *)
Lemma delay_is_mirrored_witness :
  delay_of (env_conv Demo.env0) Demo.fifty_ms (Float64.of_int (-12)) =
    Int64.wrap (Demo.fifty_ms + -60000000) /\
  delay_of (env_conv Demo.env0) Demo.fifty_ms (SFopp (Float64.of_int (-12))) =
    Int64.wrap (Demo.fifty_ms - -60000000) /\
  delay_of (env_conv Demo.env0) Demo.fifty_ms (Float64.of_int (-12)) +
    delay_of (env_conv Demo.env0) Demo.fifty_ms (SFopp (Float64.of_int (-12))) =
    2 * Demo.fifty_ms /\
  delay_of (env_conv Demo.env0) Demo.fifty_ms (S754_zero true) = Demo.fifty_ms.
Proof.
  destruct (delay_is_mirrored (env_conv Demo.env0) Demo.fifty_ms
              (Float64.of_int (-12)) (-60000000))
    as (H1 & H2 & H3 & H4).
  - vm_compute. reflexivity.
  - unfold Int64.MaxInt64. lia.
  - split; [exact H1|]. split; [exact H2|]. split.
    + apply H3; unfold Int64.in_range, Int64.MinInt64, Int64.MaxInt64,
        Demo.fifty_ms, Millisecond; cbn; lia.
    + apply H4. unfold Int64.in_range, Int64.MinInt64, Int64.MaxInt64,
        Demo.fifty_ms, Millisecond; cbn; lia.
Defined.
